(** * pyper: task descriptors, stage runners and the async adapter

    A shallow embedding of [src/pyper/_core/task.py],
    [src/pyper/_core/sync_helper/stage.py] and
    [src/pyper/_core/util/asynchronize.py], with the properties the
    specification states about them.

    Layout: the Python values the code inspects; the three source files;
    the workers of a stage as a transition system over the objects they
    share; the properties of runs as predicates; then the lemmas and
    theorems. *)

From Stdlib Require Import ZArith Lia.
From stdpp Require Import base numbers list strings.

Open Scope Z_scope.

(** ** Python values the code looks at *)

(** Exceptions. [except Exception] separates the subclasses of [Exception]
    from the exceptions that derive from [BaseException] only
    ([KeyboardInterrupt], [SystemExit], [GeneratorExit]). *)
Inductive PyExc :=
| TypeError (msg : string)
| ValueError (msg : string)
| RuntimeError (msg : string)
| AttributeError (msg : string)
| OtherException (cls : string)
| BaseOnly (cls : string).

(** [isinstance(e, Exception)] *)
Definition isinstance_Exception (e : PyExc) : bool :=
  match e with
  | BaseOnly _ => false
  | _ => true
  end.

(** A call either returns or raises. *)
Inductive result (A : Type) :=
| Ok (a : A)
| Raise (e : PyExc).
Arguments Ok {A} a.
Arguments Raise {A} e.

Definition raises {A} (r : result A) : bool :=
  match r with
  | Ok _ => false
  | Raise _ => true
  end.

(** An argument passed where the code expects an [int]: an instance of
    [int] (a [bool] counts, by its integer value), a [float], given by the
    integer it is rounded down to, which decides its comparisons with
    integers, or an object that is not a number. *)
Inductive pyarg :=
| IntArg (z : Z)
| FloatArg (floor : Z)
| OtherArg (repr : string).

(** [isinstance(a, int)] *)
Definition isinstance_int (a : pyarg) : bool :=
  match a with
  | IntArg _ => true
  | _ => false
  end.

(** What the [inspect] module reads off a function's code object. *)
Inductive code_kind := Plain | Generator | Coroutine | AsyncGenerator.

(** An executor object ([tp] or [pp] of the adapter), by its name. *)
Definition executor := string.

(** How an [async def wrapper] built by the adapter runs the function it
    wraps: called directly, or through [loop.run_in_executor]. *)
Inductive dispatch :=
| Direct
| RunInExecutor (ex : executor).

(** The objects passed as [func]. *)
Inductive pyfunc :=
| NotCallable (repr : string)
| Function (qualname : string) (k : code_kind)
| CallableObject (k : code_kind)
| Partial (f : pyfunc)
| AsyncWrapper (d : dispatch) (f : pyfunc).

(** [callable(f)] *)
Definition callable (f : pyfunc) : bool :=
  match f with
  | NotCallable _ => false
  | _ => true
  end.

(** [f.__qualname__]: functions have one, [functools.wraps] copies it onto
    the wrapper when the wrapped object has one; instances and
    [functools.partial] objects have none. *)
Fixpoint qualname_of (f : pyfunc) : option string :=
  match f with
  | Function q _ => Some q
  | AsyncWrapper _ g =>
      match qualname_of g with
      | Some q => Some q
      | None => Some "asynchronize.<locals>.wrapper"%string
      end
  | _ => None
  end.

(** [inspect._has_code_flag]: partial objects are unwrapped, then the code
    flags of a function are read; anything else has no flag. *)
Fixpoint code_kind_of (f : pyfunc) : option code_kind :=
  match f with
  | Function _ k => Some k
  | AsyncWrapper _ _ => Some Coroutine
  | Partial g => code_kind_of g
  | _ => None
  end.

(** [f.__call__]: for an instance, the bound method of its class (which
    [inspect] unwraps to the function); for functions and partial
    objects a method-wrapper, which is not a Python function. *)
Definition dunder_call (f : pyfunc) : pyfunc :=
  match f with
  | CallableObject k => Function "__call__" k
  | _ => NotCallable "method-wrapper"
  end.

Definition code_kind_eqb (a b : code_kind) : bool :=
  match a, b with
  | Plain, Plain | Generator, Generator
  | Coroutine, Coroutine | AsyncGenerator, AsyncGenerator => true
  | _, _ => false
  end.

Definition has_code_flag (k : code_kind) (f : pyfunc) : bool :=
  match code_kind_of f with
  | Some k' => code_kind_eqb k k'
  | None => false
  end.

Definition isgeneratorfunction := has_code_flag Generator.
Definition iscoroutinefunction := has_code_flag Coroutine.
Definition isasyncgenfunction := has_code_flag AsyncGenerator.

(** ** task.py *)

(** The attributes of a [Task]. *)
Record Task := mkTask {
  is_gen : bool;
  is_async : bool;
  func : pyfunc;
  branch : bool;
  join : bool;
  concurrency : Z;
  throttle : Z;
  daemon : bool;
  multiprocess : bool
}.

(** Modelled from the spec: the [multiprocess] execution-mode hint of a
    descriptor (section 3, Task Descriptor). stage.py and asynchronize.py
    read [task.multiprocess]; [Task.__init__] under src neither takes nor
    assigns it, so it is carried here as one more stored argument, after
    the arguments of the source. *)
Definition store_multiprocess (multiprocess : bool) : bool := multiprocess.

(** The capability flags as [Task.__init__] derives them, [self.is_gen]
    and [self.is_async]. *)
Definition derived_is_gen (f : pyfunc) : bool :=
  isgeneratorfunction f
  || isasyncgenfunction f
  || isgeneratorfunction (dunder_call f)
  || isasyncgenfunction (dunder_call f).

Definition derived_is_async (f : pyfunc) : bool :=
  iscoroutinefunction f
  || isasyncgenfunction f
  || iscoroutinefunction (dunder_call f)
  || isasyncgenfunction (dunder_call f).

(** [Task.__init__] *)
Definition Task_init (func : pyfunc) (branch join : bool)
    (concurrency throttle : pyarg) (daemon : bool)
    (bind : option (list Z)) (multiprocess : bool) : result Task :=
  match concurrency with
  | FloatArg _ | OtherArg _ => Raise (TypeError "concurrency must be an integer")
  | IntArg c =>
    if c <? 1 then Raise (ValueError "concurrency cannot be less than 1")
    else
    match throttle with
    | FloatArg _ | OtherArg _ => Raise (TypeError "throttle must be an integer")
    | IntArg th =>
      if th <? 0 then Raise (ValueError "throttle cannot be less than 0")
      else if negb (callable func)
      then Raise (TypeError "A task must be a callable object")
      else
        let is_gen := derived_is_gen func in
        let is_async := derived_is_async func in
        if branch && negb is_gen
        then Raise (TypeError
          "A branching task must exhibit generator behaviour (use the yield keyword)")
        else if negb branch && is_gen
        then Raise (TypeError "A non-branching task cannot be a generator")
        else if is_async && daemon
        then Raise (ValueError "daemon cannot be True for an async task")
        else Ok {|
          is_gen := is_gen;
          is_async := is_async;
          func := match bind with None => func | Some _ => Partial func end;
          branch := branch;
          join := join;
          concurrency := c;
          throttle := th;
          daemon := daemon;
          multiprocess := store_multiprocess multiprocess |}
    end
  end.

(** The rejection conditions in the words of the specification (4.1):
    non-callable input, [concurrency < 1], [throttle < 0], [branch]
    mismatched with generator capability, [daemon] with an async
    callable. A number is below an integer exactly when the integer it
    is rounded down to is; an object that is not a number is not below
    any bound. *)
Definition arg_ltb (a : pyarg) (bound : Z) : bool :=
  match a with
  | IntArg z => z <? bound
  | FloatArg floor => floor <? bound
  | OtherArg _ => false
  end.

Definition spec_rejects (func : pyfunc) (branch : bool)
    (concurrency throttle : pyarg) (daemon : bool) : bool :=
  negb (callable func)
  || arg_ltb concurrency 1
  || arg_ltb throttle 0
  || (branch && negb (derived_is_gen func))
  || (negb branch && derived_is_gen func)
  || (daemon && derived_is_async func).

(** What the descriptor's invariants are once it is built. *)
Definition valid_task (t : Task) : Prop :=
  1 <= concurrency t /\ 0 <= throttle t
  /\ branch t = is_gen t
  /\ (is_async t && daemon t = false).

(** ** sync_helper/stage.py *)

(** The two queue classes a stage chooses between, and the [maxsize]
    the queue is built with. *)
Inductive queue_class := queue_Queue | mp_Queue.

Record Queue := mkQueue {
  q_class : queue_class;
  maxsize : Z
}.

(** The bound a stage asks of its queue: [maxsize <= 0] asks for none
    ([queue.Queue] is then infinite, [mp.Queue] as large as its semaphore
    allows). *)
Inductive capacity := Unbounded | Bounded (n : Z).

Definition capacity_of (q : Queue) : capacity :=
  if maxsize q <=? 0 then Unbounded else Bounded (maxsize q).

Definition cross_process (q : Queue) : bool :=
  match q_class q with
  | mp_Queue => true
  | queue_Queue => false
  end.

(** [mp.Queue(maxsize=task.throttle) if task.multiprocess or (next_task is
    not None and next_task.multiprocess) else queue.Queue(maxsize=task.throttle)] *)
Definition make_q_out (task : Task) (next_task : option Task) : Queue :=
  if multiprocess task
     || match next_task with
        | Some nt => multiprocess nt
        | None => false
        end
  then mkQueue mp_Queue (throttle task)
  else mkQueue queue_Queue (throttle task).

(** [1 if next_task is None else next_task.concurrency] *)
Definition consumers_of (next_task : option Task) : Z :=
  match next_task with
  | None => 1
  | Some nt => concurrency nt
  end.

(** The attributes of a [Producer]. *)
Record Producer := mkProducer {
  p_q_out : Queue;
  p_n_workers : Z;
  p_n_consumers : Z
}.

(** The f-string of the two error messages reads [task.func.__qualname__]
    first; an object without that attribute makes the lookup itself raise. *)
Definition first_task_error (task : Task) (what : string) : PyExc :=
  match qualname_of (func task) with
  | Some q =>
      RuntimeError ("The first task in a pipeline (" +:+ q +:+ ") cannot " +:+ what)
  | None => AttributeError "__qualname__"
  end.

(** [Producer.__init__] *)
Definition Producer_init (task : Task) (next_task : option Task) : result Producer :=
  if concurrency task >? 1
  then Raise (first_task_error task "have concurrency greater than 1")
  else if join task
  then Raise (first_task_error task "join previous results")
  else Ok {|
    p_q_out := make_q_out task next_task;
    p_n_workers := concurrency task;
    p_n_consumers := consumers_of next_task |}.

(** The attributes of a [ProducerConsumer]; [_workers_done] starts at 0
    and lives in the run state below. *)
Record ProducerConsumer := mkProducerConsumer {
  pc_q_out : Queue;
  pc_n_workers : Z;
  pc_n_consumers : Z;
  pc_multiprocess : bool
}.

(** [ProducerConsumer.__init__] *)
Definition ProducerConsumer_init (task : Task) (next_task : option Task)
    : ProducerConsumer :=
  {| pc_q_out := make_q_out task next_task;
     pc_n_workers := concurrency task;
     pc_n_consumers := consumers_of next_task;
     pc_multiprocess := multiprocess task |}.

(** [mp.Value('i', 0)] holds a C [int]: a store keeps the low 32 bits,
    read back as a signed number. *)
Definition c_int_max : Z := 2147483647.

Definition wrap_c_int (z : Z) : Z := (z + 2147483648) mod 4294967296 - 2147483648.

(** [ProducerConsumer._increment_workers_done], run under [self._lock]:
    the new value of the counter, which is also the value returned. *)
Definition increment_workers_done (r : ProducerConsumer) (workers_done : Z) : Z :=
  if pc_multiprocess r
  then wrap_c_int (workers_done + 1)
  else workers_done + 1.

(** How many elements of a list pass a test. *)
Fixpoint count_if {A : Type} (f : A -> bool) (l : list A) : nat :=
  match l with
  | [] => O
  | x :: l' => ((if f x then 1 else 0) + count_if f l')%nat
  end.

(** A stage runner of either class. *)
Inductive runner :=
| Source (p : Producer)
| Relay (r : ProducerConsumer).

Definition n_consumers (r : runner) : Z :=
  match r with
  | Source p => p_n_consumers p
  | Relay r => pc_n_consumers r
  end.

Definition n_workers (r : runner) : Z :=
  match r with
  | Source p => p_n_workers p
  | Relay r => pc_n_workers r
  end.

Section Workers.

(** What a worker is called with or dequeues, and what it puts on its
    output queue. *)
Context {input payload : Type}.

(** Modelled from the spec: the enqueue strategy built by
    [EnqueueFactory(self.q_out, task)], which is not under src (4.4): one
    call of it invokes the task on an input and writes zero or more items
    to the queue. [enqueue x] gives the items one call writes, in order,
    and the exception the call ends with, if it raises. *)
Variable enqueue : input -> list payload * option PyExc.

Inductive item :=
| Data (p : payload)
| StopSentinel.

(** Where a worker is in [Producer._worker] or [ProducerConsumer._worker].
    [pend] is an exception that [except Exception] did not catch and that
    leaves the worker once the [finally] block is over. *)
Inductive pc :=
| Call (a : input)
    (* Producer._worker, about to call self._enqueue on its arguments *)
| Next (rest : list input)
    (* at [for output in self._dequeue()], [rest] still to be yielded *)
| Guard (x : input) (rest : list input)
    (* at [if not self._shutdown_event.is_set()], holding [x] *)
| Enqueue (outs : list payload) (r : option PyExc) (loop : option (list input))
    (* inside self._enqueue: [outs] still to be put, then it returns or
       raises [r]; [loop] is the rest of the dequeue sequence, absent in
       the source worker *)
| SetShutdown (e : PyExc)
    (* except Exception as e: at self._shutdown_event.set() *)
| PutErr (e : PyExc)
    (* at self._q_err.put(e) *)
| Increment (pend : option PyExc)
    (* finally: self._finish(), at _increment_workers_done() *)
| Compare (v : Z) (pend : option PyExc)
    (* the increment returned [v]; at [== self._n_workers] *)
| Sentinels (n : nat) (pend : option PyExc)
    (* in [for _ in range(self._n_consumers)], [n] puts to go *)
| Exited (pend : option PyExc).
    (* the worker returned, or [pend] left it *)

(** What a worker does to the shared objects, or observes of them. *)
Inductive event :=
| EvDequeue (x : input)
| EvIsSet (b : bool)
| EvPut (it : item)
| EvRaise (e : PyExc)
| EvSet
| EvErr (e : PyExc)
| EvIncr (v : Z).

(** The objects the workers share, each worker's position, and the
    record of what every worker did, newest first. *)
Record state := mkState {
  shutdown : bool;
  q_out : list item;
  q_err : list PyExc;
  workers_done : Z;
  procs : list pc;
  log : list (nat * event)
}.

(** Entering the [finally] block: the sentinel loop of [Producer._worker],
    or [self._finish()]. *)
Definition finally (r : runner) (pend : option PyExc) : pc :=
  match r with
  | Source p => Sentinels (Z.to_nat (p_n_consumers p)) pend
  | Relay _ => Increment pend
  end.

(** One step of a worker at position [p]: the next position and what the
    step did. [Producer._worker] is the positions [Call], [Enqueue] with no
    loop, the handler and [Sentinels]; [ProducerConsumer._worker] is the
    loop [Next], [Guard], [Enqueue], the handler and [_finish], which is
    [Increment], [Compare] and [Sentinels]. *)
Definition trans (r : runner) (s : state) (p : pc) : option (pc * option event) :=
  match p with
  | Call a =>
      (* try: self._enqueue on the caller's arguments *)
      Some (Enqueue (fst (enqueue a)) (snd (enqueue a)) None, None)
  | Next [] =>
      (* the dequeue generator is exhausted: on to the finally block *)
      Some (finally r None, None)
  | Next (x :: rest) =>
      (* for output in self._dequeue() *)
      Some (Guard x rest, Some (EvDequeue x))
  | Guard x rest =>
      (* if not self._shutdown_event.is_set(): self._enqueue(output) *)
      if shutdown s
      then Some (Next rest, Some (EvIsSet true))
      else Some (Enqueue (fst (enqueue x)) (snd (enqueue x)) (Some rest),
                 Some (EvIsSet false))
  | Enqueue (o :: outs) res loop =>
      (* the call writes its next item *)
      Some (Enqueue outs res loop, Some (EvPut (Data o)))
  | Enqueue [] None (Some rest) =>
      (* the call returned: next iteration of the loop *)
      Some (Next rest, None)
  | Enqueue [] None None =>
      (* the call returned: the try block of the source worker is over *)
      Some (finally r None, None)
  | Enqueue [] (Some e) _ =>
      (* the call raised: except Exception as e, or straight to finally *)
      if isinstance_Exception e
      then Some (SetShutdown e, Some (EvRaise e))
      else Some (finally r (Some e), Some (EvRaise e))
  | SetShutdown e =>
      (* self._shutdown_event.set() *)
      Some (PutErr e, Some EvSet)
  | PutErr e =>
      (* self._q_err.put(e) *)
      Some (finally r None, Some (EvErr e))
  | Increment pend =>
      (* with self._lock: add one to the counter and return it; a source
         worker has no counter and is never here *)
      match r with
      | Relay rr =>
          let v := increment_workers_done rr (workers_done s) in
          Some (Compare v pend, Some (EvIncr v))
      | Source _ => None
      end
  | Compare v pend =>
      (* if self._increment_workers_done() == self._n_workers *)
      if v =? n_workers r
      then Some (Sentinels (Z.to_nat (n_consumers r)) pend, None)
      else Some (Exited pend, None)
  | Sentinels (S n) pend =>
      (* self.q_out.put(StopSentinel) *)
      Some (Sentinels n pend, Some (EvPut StopSentinel))
  | Sentinels O pend =>
      (* the range is used up: the worker is over *)
      Some (Exited pend, None)
  | Exited _ => None
  end.

(** The effect of a step on the shared objects. A [put] is an append: a
    bounded queue makes a writer wait for room, it does not change what is
    written. *)
Definition apply_event (i : nat) (ev : option event) (s : state) : state :=
  match ev with
  | None => s
  | Some e =>
      let s' := mkState (shutdown s) (q_out s) (q_err s) (workers_done s)
                        (procs s) ((i, e) :: log s) in
      match e with
      | EvPut it =>
          mkState (shutdown s') (q_out s' ++ [it]) (q_err s') (workers_done s')
                  (procs s') (log s')
      | EvSet =>
          mkState true (q_out s') (q_err s') (workers_done s') (procs s') (log s')
      | EvErr x =>
          mkState (shutdown s') (q_out s') (q_err s' ++ [x]) (workers_done s')
                  (procs s') (log s')
      | EvIncr v =>
          mkState (shutdown s') (q_out s') (q_err s') v (procs s') (log s')
      | _ => s'
      end
  end.

Definition set_pc (i : nat) (p : pc) (s : state) : state :=
  mkState (shutdown s) (q_out s) (q_err s) (workers_done s)
          (<[i := p]> (procs s)) (log s).

(** Worker [i] takes its next step, when it has one. *)
Definition step (r : runner) (i : nat) (s : state) : option state :=
  match procs s !! i with
  | None => None
  | Some p =>
      match trans r s p with
      | None => None
      | Some (p', ev) => Some (apply_event i ev (set_pc i p' s))
      end
  end.

(** What happens next: worker [i] runs, or a worker of another stage
    reaches [self._shutdown_event.set()]. *)
Inductive action :=
| Run (i : nat)
| ShutdownElsewhere.

Definition exec (r : runner) (a : action) (s : state) : state :=
  match a with
  | Run i =>
      match step r i s with
      | Some s' => s'
      | None => s
      end
  | ShutdownElsewhere =>
      mkState true (q_out s) (q_err s) (workers_done s) (procs s) (log s)
  end.

Definition run (r : runner) (sched : list action) (s : state) : state :=
  fold_left (fun s a => exec r a s) sched s.

(** [Producer.start]: one worker, called with the caller's argument. *)
Definition Producer_start (a : input) : state :=
  mkState false [] [] 0 [Call a] [].

(** [ProducerConsumer.start]: [range(self._n_workers)] workers.
    Modelled from the spec: the dequeue strategy built by
    [DequeueFactory(q_in, task)], which is not under src (4.4), yields each
    worker a lazy, finite sequence of inputs; [seqs i] is the sequence of
    worker [i]. *)
Definition ProducerConsumer_start (r : ProducerConsumer)
    (seqs : nat -> list input) : state :=
  mkState false [] [] 0
          ((fun i => Next (seqs i)) <$> seq 0 (Z.to_nat (pc_n_workers r))) [].

(** Reading the record. *)
Definition is_sentinel_put (ev : event) : bool :=
  match ev with
  | EvPut StopSentinel => true
  | _ => false
  end.

Definition is_data_put (ev : event) : bool :=
  match ev with
  | EvPut (Data _) => true
  | _ => false
  end.

(** The events of worker [i], newest first. *)
Fixpoint events_of (i : nat) (l : list (nat * event)) : list event :=
  match l with
  | [] => []
  | (j, ev) :: l' =>
      if Nat.eqb i j then ev :: events_of i l' else events_of i l'
  end.

(** How many sentinels were put, in all and by worker [i], and how many
    the queue holds. *)
Definition sentinels_put (l : list (nat * event)) : nat :=
  count_if (fun e => is_sentinel_put (snd e)) l.

Definition sentinels_put_by (i : nat) (l : list (nat * event)) : nat :=
  count_if is_sentinel_put (events_of i l).

Definition is_sentinel (it : item) : bool :=
  match it with
  | StopSentinel => true
  | Data _ => false
  end.

Definition sentinels_in (q : list item) : nat := count_if is_sentinel q.

End Workers.

(** ** util/asynchronize.py *)

(** Modelled from the spec: the attributes of a [PipelineTask], the
    descriptor class that asynchronize.py imports from task.py and that is
    not under src; it carries the descriptor fields of section 3, the
    number of workers under the name [workers]. *)
Record PipelineTask := mkPipelineTask {
  pt_is_gen : bool;
  pt_is_async : bool;
  pt_func : pyfunc;
  pt_branch : bool;
  pt_join : bool;
  pt_workers : Z;
  pt_throttle : Z;
  pt_multiprocess : bool
}.

(** What [asynchronize] is given and returns: a [Task] that is not a
    [PipelineTask], or a [PipelineTask]. *)
Inductive descriptor :=
| OfTask (t : Task)
| OfPipelineTask (p : PipelineTask).

(** [isinstance(task, PipelineTask)] *)
Definition isinstance_PipelineTask (d : descriptor) : bool :=
  match d with
  | OfPipelineTask _ => true
  | OfTask _ => false
  end.

(** The attributes the adapter reads off either class. *)
Definition d_is_async (d : descriptor) : bool :=
  match d with OfTask t => is_async t | OfPipelineTask p => pt_is_async p end.

Definition d_is_gen (d : descriptor) : bool :=
  match d with OfTask t => is_gen t | OfPipelineTask p => pt_is_gen p end.

Definition d_func (d : descriptor) : pyfunc :=
  match d with OfTask t => func t | OfPipelineTask p => pt_func p end.

Definition d_multiprocess (d : descriptor) : bool :=
  match d with OfTask t => multiprocess t | OfPipelineTask p => pt_multiprocess p end.

Definition d_branch (d : descriptor) : bool :=
  match d with OfTask t => branch t | OfPipelineTask p => pt_branch p end.

Definition d_join (d : descriptor) : bool :=
  match d with OfTask t => join t | OfPipelineTask p => pt_join p end.

Definition d_concurrency (d : descriptor) : Z :=
  match d with OfTask t => concurrency t | OfPipelineTask p => pt_workers p end.

Definition d_throttle (d : descriptor) : Z :=
  match d with OfTask t => throttle t | OfPipelineTask p => pt_throttle p end.

(** The [async def wrapper] the adapter builds around [task.func]. *)
Definition wrapper_of (task : descriptor) (tp pp : executor) : pyfunc :=
  if d_is_gen task
  then AsyncWrapper Direct (d_func task)
  else AsyncWrapper
         (RunInExecutor (if d_multiprocess task then pp else tp))
         (d_func task).

(** [Task(wrapper)]: every other argument at its default. *)
Definition Task_of_wrapper (wrapper : pyfunc) : result Task :=
  Task_init wrapper false false (IntArg 1) (IntArg 0) false None false.

Section Asynchronize.

(** The constructor call [PipelineTask(wrapper, branch=.., join=..,
    workers=.., throttle=..)]; the class is not under src, so its
    constructor is a parameter of the adapter. *)
Variable PipelineTask_new :
  pyfunc -> bool -> bool -> Z -> Z -> result PipelineTask.

(** [asynchronize] *)
Definition asynchronize (task : descriptor) (tp pp : executor)
    : result descriptor :=
  if d_is_async task then Ok task
  else
    let wrapper := wrapper_of task tp pp in
    match task with
    | OfPipelineTask p =>
        match PipelineTask_new wrapper (pt_branch p) (pt_join p)
                               (pt_workers p) (pt_throttle p) with
        | Ok p' => Ok (OfPipelineTask p')
        | Raise e => Raise e
        end
    | OfTask _ =>
        match Task_of_wrapper wrapper with
        | Ok t' => Ok (OfTask t')
        | Raise e => Raise e
        end
    end.

End Asynchronize.

(** Modelled from the spec: a [PipelineTask] constructor that validates as
    section 4.1 says a descriptor is validated, that is, as [Task.__init__]
    does, and stores what it is given. *)
Definition PipelineTask_validating (f : pyfunc) (b j : bool) (w th : Z)
    : result PipelineTask :=
  match Task_init f b j (IntArg w) (IntArg th) false None false with
  | Ok t =>
      Ok (mkPipelineTask (is_gen t) (is_async t) (func t) (branch t) (join t)
            (concurrency t) (throttle t) (multiprocess t))
  | Raise e => Raise e
  end.

(** ** Properties of runs, as predicates on states and records *)

Section Observations.

Context {input payload : Type}.
Variable enqueue : input -> list payload * option PyExc.

Local Abbreviation pc := (@pc input payload).
Local Abbreviation event := (@event input payload).
Local Abbreviation state := (@state input payload).

(** The worker has left [_worker]. *)
Definition exited (p : pc) : bool :=
  match p with
  | Exited _ => true
  | _ => false
  end.

Definition all_exited (s : state) : Prop :=
  forall i p, procs s !! i = Some p -> exited p = true.

(** The worker is past [_increment_workers_done]. *)
Definition incremented (p : pc) : bool :=
  match p with
  | Compare _ _ | Sentinels _ _ | Exited _ => true
  | _ => false
  end.

(** The worker is inside a call of the enqueue strategy: the call has
    begun and has not returned or raised yet. *)
Definition in_call (p : pc) : bool :=
  match p with
  | Enqueue _ _ _ => true
  | _ => false
  end.

(** An upper bound on the steps a worker still takes. *)
Definition call_steps (x : input) : nat := (length (fst (enqueue x)) + 4)%nat.

Fixpoint loop_steps (rest : list input) : nat :=
  match rest with
  | [] => 1
  | x :: rest' => (3 + call_steps x + loop_steps rest')%nat
  end.

Definition steps_left (r : runner) (p : pc) : nat :=
  let fin := (Z.to_nat (n_consumers r) + 4)%nat in
  match p with
  | Call a => (2 + call_steps a + fin)%nat
  | Next rest => (loop_steps rest + fin)%nat
  | Guard x rest => (2 + call_steps x + loop_steps rest + fin)%nat
  | Enqueue outs _ None => (length outs + 4 + fin)%nat
  | Enqueue outs _ (Some rest) => (length outs + 4 + loop_steps rest + fin)%nat
  | SetShutdown _ => (2 + fin)%nat
  | PutErr _ => (1 + fin)%nat
  | Increment _ => fin
  | Compare _ _ => (Z.to_nat (n_consumers r) + 2)%nat
  | Sentinels n _ => S n
  | Exited _ => O
  end.

(** The inputs worker [i] dequeued, the items put, oldest first. *)
Fixpoint dequeued_rev (evs : list event) : list input :=
  match evs with
  | [] => []
  | EvDequeue x :: evs' => x :: dequeued_rev evs'
  | _ :: evs' => dequeued_rev evs'
  end.

Definition dequeued (i : nat) (l : list (nat * event)) : list input :=
  rev (dequeued_rev (events_of i l)).

Fixpoint puts_rev (l : list (nat * event)) : list (@item payload) :=
  match l with
  | [] => []
  | (_, EvPut it) :: l' => it :: puts_rev l'
  | _ :: l' => puts_rev l'
  end.

Definition is_raise (ev : event) : bool :=
  match ev with
  | EvRaise _ => true
  | _ => false
  end.

(** Worker [i] had a call of the enqueue strategy raise. *)
Definition raised (i : nat) (l : list (nat * event)) : bool :=
  existsb is_raise (events_of i l).

Definition data_put_by (i : nat) (l : list (nat * event)) : nat :=
  count_if is_data_put (events_of i l).

(** Going back in a worker's record from inside a call, from a put of
    data or from a raise: the puts of the same call, then the observation
    that found the flag unset. *)
Fixpoint since_guard (evs : list event) : bool :=
  match evs with
  | EvPut (Data _) :: evs' => since_guard evs'
  | EvIsSet false :: _ => true
  | _ => false
  end.

(** Every put of data and every raise belongs to a call made right after
    the worker observed the flag unset. *)
Fixpoint guarded (evs : list event) : bool :=
  match evs with
  | [] => true
  | ev :: evs' =>
      (if is_data_put ev || is_raise ev then since_guard evs' else true)
      && guarded evs'
  end.

(** The Shutdown Flag guards the enqueues of a stage: whenever a worker
    is inside a call of the enqueue strategy, the step before the call was
    an observation that found the flag unset, so every put of data and
    every raise belongs to such a call; and once the flag is set a worker
    that is not in the middle of a call begins no call again and writes no
    more output. *)
Definition flag_guards_enqueue (r : runner) (s0 : state) : Prop :=
  (forall sched i, guarded (events_of i (log (run enqueue r sched s0))) = true)
  /\ (forall sched i p,
        let s := run enqueue r sched s0 in
        procs s !! i = Some p -> in_call p = true ->
        since_guard (events_of i (log s)) = true)
  /\ (forall sched sched' i p,
        let s := run enqueue r sched s0 in
        shutdown s = true -> procs s !! i = Some p -> in_call p = false ->
        data_put_by i (log (run enqueue r sched' s)) = data_put_by i (log s)
        /\ forall p', procs (run enqueue r sched' s) !! i = Some p' ->
                      in_call p' = false).

(** A worker whose call raised [e] has caught it: it leaves with nothing
    pending, the flag is set and [e] is in the error sink. *)
Definition fault_contained (s : state) (i : nat) (e : PyExc) : Prop :=
  procs s !! i = Some (Exited None) /\ shutdown s = true /\ e ∈ q_err s.

Definition faults_contained (caught : PyExc -> bool) (r : runner) (s0 : state)
    : Prop :=
  forall sched i e pend,
    let s := run enqueue r sched s0 in
    (i, EvRaise e) ∈ log s -> caught e = true ->
    procs s !! i = Some (Exited pend) ->
    fault_contained s i e.

(** Every exception counts. *)
Definition any_exception (e : PyExc) : bool := true.

(** A worker that has left consumed the whole of its dequeue sequence,
    unless its record excuses it; what it dequeued is in any case the
    beginning of the sequence. *)
Definition drains_unless (excuse : nat -> list (nat * event) -> bool)
    (r : ProducerConsumer) (seqs : nat -> list input) : Prop :=
  forall sched i pend,
    let s := run enqueue (Relay r) sched (ProducerConsumer_start r seqs) in
    procs s !! i = Some (Exited pend) ->
    (exists rest, dequeued i (log s) ++ rest = seqs i)
    /\ (excuse i (log s) = false -> dequeued i (log s) = seqs i).

(** No excuse. *)
Definition no_excuse (i : nat) (l : list (nat * event)) : bool := false.

(** A worker that has left after one of its calls raised stopped at the
    input of that call: it is the last input the worker dequeued. *)
Definition stops_where_raised (r : ProducerConsumer) (seqs : nat -> list input)
    : Prop :=
  forall sched i pend,
    let s := run enqueue (Relay r) sched (ProducerConsumer_start r seqs) in
    procs s !! i = Some (Exited pend) -> raised i (log s) = true ->
    exists d0 x e, dequeued i (log s) = d0 ++ [x] /\ snd (enqueue x) = Some e.

(** An exception that the handler does not catch leaves the worker, after
    the [finally] block. *)
Definition faults_escape (r : runner) (s0 : state) : Prop :=
  forall sched i e pend,
    let s := run enqueue r sched s0 in
    (i, EvRaise e) ∈ log s -> isinstance_Exception e = false ->
    procs s !! i = Some (Exited pend) ->
    pend = Some e.

(** The worker's record holds no observation of the flag. *)
Definition is_observation (ev : event) : bool :=
  match ev with
  | EvIsSet _ => true
  | _ => false
  end.

Definition never_observes (r : runner) (s0 : state) : Prop :=
  forall sched i,
    existsb is_observation (events_of i (log (run enqueue r sched s0))) = false.

(** The items a worker put, newest first, read off its own record. *)
Fixpoint puts_ev (evs : list event) : list (@item payload) :=
  match evs with
  | [] => []
  | EvPut it :: evs' => it :: puts_ev evs'
  | _ :: evs' => puts_ev evs'
  end.

(** The queue holds what the record says was put, and only the workers
    of the stage appear in the record. *)
Definition wf_state (s : state) : Prop :=
  q_out s = rev (puts_rev (log s))
  /\ forall j ev, (j, ev) ∈ log s -> (j < length (procs s))%nat.

(** The steps the workers of a state still take, at most. *)
Definition total_left (r : runner) (s : state) : nat :=
  sum_list_with (steps_left r) (procs s).

(** What one step adds to a worker's record and does to the flag and to
    the error sink. *)
Definition ev_cons (ev : option event) (evs : list event) : list event :=
  match ev with
  | Some e => e :: evs
  | None => evs
  end.

Definition shutdown_after (b : bool) (ev : option event) : bool :=
  match ev with
  | Some EvSet => true
  | _ => b
  end.

Definition q_err_after (q : list PyExc) (ev : option event) : list PyExc :=
  match ev with
  | Some (EvErr e) => q ++ [e]
  | _ => q
  end.

(** The positions a worker of the stage can be at: a source worker has no
    completion counter. *)
Definition role_ok (r : runner) (p : pc) : Prop :=
  match r, p with
  | Source _, (Increment _ | Compare _ _) => False
  | _, _ => True
  end.

Definition roles_ok (r : runner) (s : state) : Prop :=
  forall i p, procs s !! i = Some p -> role_ok r p.

(** Where the source worker called with [a] is, against what it has put:
    the items of its one call in order, then, in the [finally] block, the
    sentinels, [n] of them in all. *)
Definition source_progress (a : input) (n : nat)
    (p : pc) (evs : list event) : Prop :=
  let written := Data <$> fst (enqueue a) in
  match p with
  | Call a' => a' = a /\ evs = []
  | Enqueue outs res None =>
      res = snd (enqueue a) /\ rev (puts_ev evs) ++ (Data <$> outs) = written
  | SetShutdown _ | PutErr _ => rev (puts_ev evs) = written
  | Sentinels k _ =>
      (k <= n)%nat
      /\ exists evs0, evs = replicate (n - k) (EvPut StopSentinel) ++ evs0
           /\ rev (puts_ev evs0) = written
  | Exited _ =>
      exists evs0, evs = replicate n (EvPut StopSentinel) ++ evs0
        /\ rev (puts_ev evs0) = written
  | _ => False
  end.

(** Where a worker is against the exceptions its calls raised: one that
    [except Exception] catches takes it through the handler, which sets
    the flag and fills the error sink, and leaves nothing pending; any
    other stays pending through the [finally] block. *)
Definition handled (b : bool) (q : list PyExc) (p : pc) (evs : list event)
    : Prop :=
  forall e, EvRaise e ∈ evs ->
    if isinstance_Exception e
    then match p with
         | SetShutdown e' => e' = e
         | PutErr e' => e' = e /\ b = true
         | Increment pend | Compare _ pend | Sentinels _ pend | Exited pend =>
             pend = None /\ b = true /\ e ∈ q
         | _ => False
         end
    else match p with
         | Increment pend | Compare _ pend | Sentinels _ pend | Exited pend =>
             pend = Some e
         | _ => False
         end.

(** Where a relay worker is against what it dequeued of its sequence
    [xs]: in the loop it has raised nothing, has the rest ahead of it, and
    the input it holds or is calling on is the last it dequeued; out of the
    loop it has dequeued all of [xs] unless a call raised, and then the
    last input it dequeued is one on which the call raises. *)
Definition consumed (xs : list input) (p : pc) (evs : list event) : Prop :=
  let d := rev (dequeued_rev evs) in
  match p with
  | Next rest => d ++ rest = xs /\ existsb is_raise evs = false
  | Guard x rest =>
      d ++ rest = xs /\ existsb is_raise evs = false
      /\ exists d0, d = d0 ++ [x]
  | Enqueue _ res (Some rest) =>
      d ++ rest = xs /\ existsb is_raise evs = false
      /\ exists d0 x, d = d0 ++ [x] /\ res = snd (enqueue x)
  | Call _ | Enqueue _ _ None => False
  | _ =>
      (exists rest, d ++ rest = xs)
      /\ (existsb is_raise evs = false -> d = xs)
      /\ (existsb is_raise evs = true ->
          exists d0 x e, d = d0 ++ [x] /\ snd (enqueue x) = Some e)
  end.

(** A relay worker's record is guarded, and inside a call the worker is
    past an observation of the flag unset. *)
Definition guarded_at (p : pc) (evs : list event) : Prop :=
  guarded evs = true
  /\ match p with
     | Enqueue _ _ (Some _) => since_guard evs = true
     | Call _ | Enqueue _ _ None => False
     | _ => True
     end.

(** A source worker is never in the loop of a relay worker and has
    observed nothing. *)
Definition unobserving (p : pc) (evs : list event) : Prop :=
  existsb is_observation evs = false
  /\ match p with
     | Next _ | Guard _ _ | Enqueue _ _ (Some _) => False
     | _ => True
     end.

(** With the flag set and a relay worker outside a call, the worker's
    count of data put stays at [n]. *)
Definition quiet (n : nat) (b : bool) (p : pc) (evs : list event) : Prop :=
  b = true
  /\ match p with
     | Call _ | Enqueue _ _ _ => False
     | _ => True
     end
  /\ count_if is_data_put evs = n.

(** The counter of a relay stage can count the stage's workers: there is
    at least one worker and, when the counter is the C [int] of
    [mp.Value], no more workers than a C [int] holds. *)
Definition counter_fits (rr : ProducerConsumer) : Prop :=
  1 <= pc_n_workers rr
  /\ (pc_multiprocess rr = true -> pc_n_workers rr <= c_int_max).

(** Where relay worker [i] is in [_finish], against the record [l]: the
    value its increment returned, and the sentinels it has put so far. *)
Definition on_finish (rr : ProducerConsumer) (l : list (nat * event))
    (i : nat) (p : pc) : Prop :=
  let c := pc_n_workers rr in
  let m := Z.to_nat (pc_n_consumers rr) in
  match p with
  | Compare v _ => (i, EvIncr v) ∈ l /\ sentinels_put_by i l = O
  | Sentinels k _ => (i, EvIncr c) ∈ l /\ (sentinels_put_by i l + k = m)%nat
  | Exited _ =>
      exists v, (i, EvIncr v) ∈ l
        /\ sentinels_put_by i l = if v =? c then m else O
  | _ => sentinels_put_by i l = O /\ forall v, (i, EvIncr v) ∉ l
  end.

(** The completion counter against the workers and the record: it counts
    the workers past the increment, the values returned are 1, 2, ... up
    to it, each returned once and each worker returned at most one. *)
Definition accounting (rr : ProducerConsumer) (s : state) : Prop :=
  workers_done s = Z.of_nat (count_if incremented (procs s))
  /\ length (procs s) = Z.to_nat (pc_n_workers rr)
  /\ (forall i v, (i, EvIncr v) ∈ log s -> 1 <= v <= workers_done s)
  /\ (forall i j v, (i, EvIncr v) ∈ log s -> (j, EvIncr v) ∈ log s -> i = j)
  /\ (forall i v v', (i, EvIncr v) ∈ log s -> (i, EvIncr v') ∈ log s -> v = v')
  /\ (forall v, 1 <= v <= workers_done s -> exists i, (i, EvIncr v) ∈ log s)
  /\ (forall i p, procs s !! i = Some p -> on_finish rr (log s) i p).

End Observations.

(** ** What a stage writes, as predicates on queues and records *)

(** The error class of an exception raised by a constructor. *)
Definition is_TypeError (e : PyExc) : bool :=
  match e with
  | TypeError _ => true
  | _ => false
  end.

Definition is_ValueError (e : PyExc) : bool :=
  match e with
  | ValueError _ => true
  | _ => false
  end.

Definition is_RuntimeError (e : PyExc) : bool :=
  match e with
  | RuntimeError _ => true
  | _ => false
  end.

(** The same relay stage with its counter kept in the process
    ([self._workers_done = 0] under a [threading.Lock]). *)
Definition in_process (rr : ProducerConsumer) : ProducerConsumer :=
  mkProducerConsumer (pc_q_out rr) (pc_n_workers rr) (pc_n_consumers rr) false.

(** A schedule in which no other stage sets the flag. *)
Definition is_run (a : action) : bool :=
  match a with
  | Run _ => true
  | ShutdownElsewhere => false
  end.

Section Outputs.

Context {input payload : Type}.
Variable enqueue : input -> list payload * option PyExc.

Local Abbreviation pc := (@pc input payload).
Local Abbreviation event := (@event input payload).
Local Abbreviation state := (@state input payload).

(** The payloads of a queue, in order, and the queue as all its data
    followed by all its sentinels. *)
Fixpoint datas (q : list (@item payload)) : list payload :=
  match q with
  | [] => []
  | Data o :: q' => o :: datas q'
  | StopSentinel :: q' => datas q'
  end.

Fixpoint data_then_sentinels (q : list (@item payload)) : bool :=
  match q with
  | [] => true
  | Data _ :: q' => data_then_sentinels q'
  | StopSentinel :: q' => forallb is_sentinel q'
  end.

(** The payloads a worker put, newest first, and those worker [i] put,
    oldest first. *)
Fixpoint data_ev (evs : list event) : list payload :=
  match evs with
  | [] => []
  | EvPut (Data o) :: evs' => o :: data_ev evs'
  | _ :: evs' => data_ev evs'
  end.

Definition data_put_of (i : nat) (l : list (nat * event)) : list payload :=
  rev (data_ev (events_of i l)).

(** What the calls of the enqueue strategy on the inputs [l] write, in
    order. *)
Definition outputs (l : list input) : list payload :=
  flat_map (fun x => fst (enqueue x)) l.

(** The exceptions put on the error sink, newest first. *)
Fixpoint errs_rev (l : list (nat * event)) : list PyExc :=
  match l with
  | [] => []
  | (_, EvErr e) :: l' => e :: errs_rev l'
  | _ :: l' => errs_rev l'
  end.

Definition is_err (ev : event) : bool :=
  match ev with
  | EvErr _ => true
  | _ => false
  end.

(** A stage before any of its workers has run. *)
Definition fresh (s0 : state) : Prop :=
  shutdown s0 = false /\ q_err s0 = [] /\ q_out s0 = [] /\ log s0 = []
  /\ forall i p, procs s0 !! i = Some p ->
       match p with Call _ | Next _ => True | _ => False end.

(** The error sink holds what the record says was put on it. *)
Definition sink_wf (s : state) : Prop := q_err s = rev (errs_rev (log s)).

(** Where a worker is against its use of the flag and of the error sink:
    it puts on the sink, once, an exception that one of its calls raised
    and that is an [Exception], after setting the flag. *)
Definition recorded (b : bool) (p : pc) (evs : list event) : Prop :=
  (forall e, EvErr e ∈ evs ->
     EvRaise e ∈ evs /\ isinstance_Exception e = true /\ b = true)
  /\ (EvSet ∈ evs ->
      b = true /\ exists e, EvRaise e ∈ evs /\ isinstance_Exception e = true)
  /\ (count_if is_err evs <= 1)%nat
  /\ match p with
     | Call _ | Next _ | Guard _ _ | Enqueue _ _ _ => count_if is_err evs = O
     | SetShutdown e =>
         count_if is_err evs = O
         /\ EvRaise e ∈ evs /\ isinstance_Exception e = true
     | PutErr e =>
         count_if is_err evs = O
         /\ EvRaise e ∈ evs /\ isinstance_Exception e = true /\ b = true
     | _ => True
     end.

(** The flag is set only by a worker of the stage. *)
Definition set_by_worker (s : state) : Prop :=
  shutdown s = true -> exists i, (i, EvSet) ∈ log s.

(** Where a relay worker is against what it has written: the outputs of
    the calls on the inputs it dequeued, in order, up to the first input it
    found the flag set at; all of them while the flag is unset. *)
Definition emitted (b : bool) (p : pc) (evs : list event) : Prop :=
  let D := rev (data_ev evs) in
  let d := rev (dequeued_rev evs) in
  let upto (l : list input) :=
    (exists k, (k <= length l)%nat /\ D = outputs (take k l))
    /\ (b = false -> D = outputs l) in
  match p with
  | Guard x _ => exists d0, d = d0 ++ [x] /\ upto d0
  | Enqueue outs _ (Some _) => D ++ outs = outputs d
  | Call _ | Enqueue _ _ None => False
  | _ => upto d
  end.

(** A relay worker that has met the flag set from its first step on: it
    made no call, so it wrote no data, raised nothing and recorded
    nothing. *)
Definition quiet_event (ev : event) : bool :=
  match ev with
  | EvDequeue _ | EvIsSet true | EvIncr _ | EvPut StopSentinel => true
  | _ => false
  end.

Definition silent (b : bool) (p : pc) (evs : list event) : Prop :=
  b = true
  /\ forallb quiet_event evs = true
  /\ match p with
     | Next _ | Guard _ _ => True
     | Increment None | Compare _ None | Sentinels _ None | Exited None => True
     | _ => False
     end.

(** The queue has its data before its sentinels, and holds a sentinel
    only when the counter has reached the number of workers. *)
Definition queue_ordered (rr : ProducerConsumer) (s : state) : Prop :=
  accounting rr s /\ wf_state s /\ data_then_sentinels (q_out s) = true.

End Outputs.

(** ** Fields kept by the adapter, and the descriptors of the examples *)

(** The fields of [d'] are those of [d]. *)
Definition preserves_fields (d d' : descriptor) : Prop :=
  d_branch d' = d_branch d /\ d_join d' = d_join d
  /\ d_concurrency d' = d_concurrency d /\ d_throttle d' = d_throttle d.

(** A plain synchronous function as a task. *)
Definition plain_task (c th : Z) (mp : bool) : Task :=
  mkTask false false (Function "work" Plain) false false c th false mp.

(** A generator function as a branching task with two workers and a
    throttle of five, as [Task.__init__] builds it. *)
Definition generator_task : Task :=
  mkTask true false (Function "fan_out" Generator) true false 2 5 false false.

(** A coroutine function as a task. *)
Definition coroutine_task : Task :=
  mkTask false true (Function "fetch" Coroutine) false true 3 2 false false.

(** A plain function bound to an argument, with two workers, as
    [Task.__init__] builds it from [bind]. *)
Definition bound_task : Task :=
  mkTask false false (Partial (Function "work" Plain)) false false 2 0 false false.

(** A synchronous, multiprocessed [PipelineTask]. *)
Definition plain_pipeline_task : PipelineTask :=
  mkPipelineTask false false (Function "work" Plain) false true 4 7 true.

(** ** The stages and tasks of the examples *)

(** A task that doubles its input and raises on the input 2. *)
Definition double_or_fail (x : Z) : list Z * option PyExc :=
  if x =? 2 then ([], Some (ValueError "bad item")) else ([2 * x], None).

(** A branching task that yields its input and the next number. *)
Definition fan_out (x : Z) : list Z * option PyExc := ([x; x + 1], None).

(** A task interrupted before it writes anything. *)
Definition interrupted (x : Z) : list Z * option PyExc :=
  ([], Some (BaseOnly "KeyboardInterrupt")).

(** A source stage that feeds three consumers, and one that is the only
    stage. *)
Definition source_of_three : Producer :=
  mkProducer (mkQueue queue_Queue 0) 1 3.

Definition lone_source : Producer :=
  mkProducer (mkQueue queue_Queue 0) 1 1.

(** A relay stage with one worker, the last of its pipeline. *)
Definition lone_relay : ProducerConsumer :=
  ProducerConsumer_init (plain_task 1 0 false) None.

(** Worker 0 dequeues, finds the flag unset and enters its call; then the
    flag is set by another stage; then worker 0 runs on to its end. *)
Definition shutdown_midway : list action :=
  [Run O; Run O; ShutdownElsewhere] ++ replicate 12 (Run O).

(** Worker 0 and worker 1 taking turns, then each running on alone. *)
Definition taking_turns : list action :=
  flat_map (fun _ => [Run O; Run 1%nat]) (seq 0 12)
  ++ replicate 12 (Run O) ++ replicate 12 (Run 1%nat).

(** * Lemmas and theorems *)

(** ** Task descriptors *)

Lemma Task_init_valid f b j c th d bind mp t :
  Task_init f b j c th d bind mp = Ok t -> valid_task t.
Proof.
  unfold Task_init, valid_task.
  destruct c as [c | |]; [| discriminate | discriminate].
  destruct (Z.ltb_spec c 1); [discriminate|].
  destruct th as [th | |]; [| discriminate | discriminate].
  destruct (Z.ltb_spec th 0); [discriminate|].
  destruct (negb (callable f)); [discriminate|].
  destruct b, (derived_is_gen f); simpl; try discriminate;
    destruct (derived_is_async f), d; simpl; try discriminate;
    intros [= <-]; simpl; repeat split; lia.
Qed.

Example plain_task_built :
  Task_init (Function "work" Plain) false false (IntArg 1) (IntArg 4) false None true
  = Ok (plain_task 1 4 true).
Proof. reflexivity. Qed.

(** C3, as stated, fails: [concurrency=2.5] is rejected, with a
    [TypeError], although the callable is callable, no bound is crossed,
    [branch] matches and [daemon] is off. *)
Lemma Task_init_rejects_outside_listed_conditions :
  Task_init (Function "work" Plain) false false (FloatArg 2) (IntArg 0)
            false None false
  = Raise (TypeError "concurrency must be an integer")
  /\ spec_rejects (Function "work" Plain) false (FloatArg 2) (IntArg 0) false
     = false.
Proof. split; reflexivity. Qed.

(** C3, amended: [Task.__init__] raises exactly when [concurrency] or
    [throttle] is not an integer or one of the conditions the
    specification lists holds; otherwise it returns the descriptor that
    stores its arguments and the two derived flags. It is a function of
    its arguments alone. *)
Theorem Task_init_rejects_iff f b j c th d bind mp :
  match Task_init f b j c th d bind mp with
  | Raise _ =>
      negb (isinstance_int c) || negb (isinstance_int th)
      || spec_rejects f b c th d = true
  | Ok t =>
      negb (isinstance_int c) || negb (isinstance_int th)
      || spec_rejects f b c th d = false
      /\ IntArg (concurrency t) = c /\ IntArg (throttle t) = th
      /\ branch t = b /\ join t = j /\ daemon t = d
      /\ is_gen t = derived_is_gen f /\ is_async t = derived_is_async f
      /\ func t = match bind with None => f | Some _ => Partial f end
  end.
Proof.
  unfold Task_init, spec_rejects.
  destruct c as [c | c |]; [| reflexivity | reflexivity].
  destruct th as [th | th |]; simpl.
  2, 3: destruct (c <? 1); reflexivity.
  destruct (c <? 1) eqn:Hc; simpl.
  { destruct (callable f); reflexivity. }
  destruct (th <? 0) eqn:Hth; simpl.
  { destruct (callable f); reflexivity. }
  destruct (callable f); simpl; [|reflexivity].
  destruct b, (derived_is_gen f); simpl; try reflexivity;
    destruct (derived_is_async f), d; simpl; repeat split; reflexivity.
Qed.

(** ** Stage construction *)

(** C6: building the source stage runner raises when the descriptor has
    [concurrency > 1] or [join] set, and returns a runner when
    [concurrency == 1] and [join] is off; nothing else makes it raise. *)
Theorem Producer_init_first_task_constraint (task : Task) (next_task : option Task) :
  (concurrency task > 1 \/ join task = true ->
     raises (Producer_init task next_task) = true)
  /\ (concurrency task = 1 /\ join task = false ->
     Producer_init task next_task
     = Ok (mkProducer (make_q_out task next_task) 1 (consumers_of next_task)))
  /\ raises (Producer_init task next_task) = (concurrency task >? 1) || join task.
Proof.
  unfold Producer_init. repeat split.
  - intros [H | H].
    + destruct (Z.gtb_spec (concurrency task) 1); [reflexivity | lia].
    + rewrite H. destruct (concurrency task >? 1); reflexivity.
  - intros [-> ->]. reflexivity.
  - destruct (concurrency task >? 1), (join task); reflexivity.
Qed.

(** C6 at a task with two workers, at a joining task and at a legal first
    task. *)
Lemma Producer_init_first_task_constraint_witness :
  raises (Producer_init (plain_task 2 0 false) None) = true
  /\ raises (Producer_init (mkTask false false (Function "work" Plain)
                                   false true 1 0 false false) None) = true
  /\ Producer_init (plain_task 1 0 false) (Some (plain_task 3 0 false))
     = Ok (mkProducer (mkQueue queue_Queue 0) 1 3).
Proof.
  split; [| split].
  - apply (proj1 (Producer_init_first_task_constraint (plain_task 2 0 false) None)).
    left. simpl. lia.
  - apply (proj1 (Producer_init_first_task_constraint
                    (mkTask false false (Function "work" Plain)
                            false true 1 0 false false) None)).
    right. reflexivity.
  - apply (proj1 (proj2 (Producer_init_first_task_constraint
                           (plain_task 1 0 false) (Some (plain_task 3 0 false))))).
    split; reflexivity.
Defined.

Lemma make_q_out_spec (task : Task) (next_task : option Task) :
  maxsize (make_q_out task next_task) = throttle task
  /\ cross_process (make_q_out task next_task)
     = multiprocess task
       || match next_task with Some nt => multiprocess nt | None => false end.
Proof.
  unfold make_q_out.
  destruct (multiprocess task || _) eqn:E; rewrite ?E; split; reflexivity.
Qed.

(** C9: the output queue of a stage, source or relay, is built with the
    producing task's [throttle] as its capacity, 0 standing for no bound,
    and is the cross-process class exactly when the task or the next task,
    if there is one, is multiprocessed. *)
Theorem stage_output_queue (task : Task) (next_task : option Task) :
  valid_task task ->
  let adjacent_multiprocess :=
    multiprocess task
    || match next_task with Some nt => multiprocess nt | None => false end in
  let built (q : Queue) :=
    maxsize q = throttle task
    /\ capacity_of q
       = (if throttle task =? 0 then Unbounded else Bounded (throttle task))
    /\ (cross_process q = true <-> adjacent_multiprocess = true)
    /\ (q_class q = queue_Queue <-> adjacent_multiprocess = false) in
  built (pc_q_out (ProducerConsumer_init task next_task))
  /\ forall p, Producer_init task next_task = Ok p -> built (p_q_out p).
Proof.
  intros (_ & Hth & _) adj built.
  assert (Hq : built (make_q_out task next_task)).
  { destruct (make_q_out_spec task next_task) as [Hm Hc].
    unfold built, capacity_of. rewrite Hm. fold adj in Hc.
    repeat split.
    - destruct (Z.leb_spec (throttle task) 0), (Z.eqb_spec (throttle task) 0);
        try reflexivity; lia.
    - rewrite Hc. trivial.
    - rewrite Hc. trivial.
    - intros Hq. unfold cross_process in Hc. rewrite Hq in Hc. congruence.
    - intros Ha. unfold cross_process in Hc. rewrite Ha in Hc.
      destruct (q_class _); congruence. }
  split; [exact Hq|].
  intros p. unfold Producer_init.
  destruct (concurrency task >? 1); [discriminate|].
  destruct (join task); [discriminate|].
  intros [= <-]. exact Hq.
Qed.

(** C9 at a relay stage throttled at four whose next task is
    multiprocessed. *)
Lemma stage_output_queue_witness :
  maxsize (pc_q_out (ProducerConsumer_init (plain_task 1 4 false)
                                           (Some (plain_task 3 0 true)))) = 4
  /\ (cross_process (pc_q_out (ProducerConsumer_init (plain_task 1 4 false)
                                           (Some (plain_task 3 0 true)))) = true
      <-> false || true = true).
Proof.
  destruct (stage_output_queue (plain_task 1 4 false) (Some (plain_task 3 0 true)))
    as [(Hm & _ & Hc & _) _].
  - unfold valid_task; simpl; repeat split; lia.
  - split; [exact Hm | exact Hc].
Defined.

(** ** The async adapter *)

Section AdapterFacts.

Variable PipelineTask_new : pyfunc -> bool -> bool -> Z -> Z -> result PipelineTask.

(** The wrapper is a coroutine function, whatever it wraps. *)
Lemma wrapper_flags (task : descriptor) (tp pp : executor) :
  derived_is_gen (wrapper_of task tp pp) = false
  /\ derived_is_async (wrapper_of task tp pp) = true
  /\ callable (wrapper_of task tp pp) = true.
Proof. unfold wrapper_of. destruct (d_is_gen task); repeat split; reflexivity. Qed.

(** [Task(wrapper)] never raises and has the default fields. *)
Lemma Task_of_wrapper_ok (task : descriptor) (tp pp : executor) :
  Task_of_wrapper (wrapper_of task tp pp)
  = Ok (mkTask false true (wrapper_of task tp pp) false false 1 0 false false).
Proof. unfold wrapper_of. destruct (d_is_gen task); reflexivity. Qed.

(** C7: for a descriptor whose [is_async] flag is set the adapter returns
    that very descriptor, so applying it again changes nothing. *)
Theorem asynchronize_async_unchanged (task : descriptor) (tp pp : executor) :
  d_is_async task = true ->
  asynchronize PipelineTask_new task tp pp = Ok task
  /\ (forall d, asynchronize PipelineTask_new task tp pp = Ok d ->
       asynchronize PipelineTask_new d tp pp = Ok d).
Proof.
  intros H. unfold asynchronize. rewrite H.
  split; [reflexivity|]. intros d [= <-]. rewrite H. reflexivity.
Qed.

(** C8, amended: for a non-async [PipelineTask] the descriptor the adapter
    returns is built from the wrapper and the original's [branch], [join],
    [workers] and [throttle], so it has those fields whenever the
    constructor stores what it is given; for a non-async [Task] that is not
    a [PipelineTask] the adapter returns [Task(wrapper)], with [branch] and
    [join] off, [concurrency] 1 and [throttle] 0. *)
Theorem asynchronize_fields (task d' : descriptor) (tp pp : executor) :
  (forall f b j w th p, PipelineTask_new f b j w th = Ok p ->
     pt_branch p = b /\ pt_join p = j /\ pt_workers p = w /\ pt_throttle p = th) ->
  d_is_async task = false ->
  asynchronize PipelineTask_new task tp pp = Ok d' ->
  if isinstance_PipelineTask task
  then isinstance_PipelineTask d' = true /\ preserves_fields task d'
  else d' = OfTask (mkTask false true (wrapper_of task tp pp)
                           false false 1 0 false false).
Proof.
  intros Hnew Hasync. unfold asynchronize.
  rewrite Hasync. destruct task as [t | p]; simpl.
  - rewrite Task_of_wrapper_ok. intros [= <-]. reflexivity.
  - destruct (PipelineTask_new _ _ _ _ _) as [p' |] eqn:E; [|discriminate].
    intros [= <-]. apply Hnew in E. destruct E as (? & ? & ? & ?).
    split; [reflexivity|]. unfold preserves_fields; simpl. auto.
Qed.

End AdapterFacts.

(** C7 at a coroutine task. *)
Lemma asynchronize_async_unchanged_witness :
  d_is_async (OfTask coroutine_task) = true
  /\ asynchronize PipelineTask_validating (OfTask coroutine_task) "tp" "pp"
     = Ok (OfTask coroutine_task).
Proof.
  split; [reflexivity|].
  exact (proj1 (asynchronize_async_unchanged PipelineTask_validating
                  (OfTask coroutine_task) "tp" "pp" eq_refl)).
Defined.

Example generator_task_built :
  Task_init (Function "fan_out" Generator) true false (IntArg 2) (IntArg 5)
            false None false
  = Ok generator_task.
Proof. reflexivity. Qed.

(** C8, as stated, fails: the adapter turns the branching generator task
    with two workers and throttle five into [Task(wrapper)], which has
    [branch] off, one worker and no throttle. *)
Lemma asynchronize_drops_task_fields :
  exists d',
    asynchronize PipelineTask_validating (OfTask generator_task) "tp" "pp" = Ok d'
    /\ d_is_async (OfTask generator_task) = false
    /\ d_branch d' <> d_branch (OfTask generator_task)
    /\ d_concurrency d' <> d_concurrency (OfTask generator_task)
    /\ d_throttle d' <> d_throttle (OfTask generator_task)
    /\ ~ preserves_fields (OfTask generator_task) d'.
Proof.
  eexists. split; [reflexivity|]. simpl.
  repeat split; try discriminate.
  intros (H & _). discriminate H.
Qed.

Lemma PipelineTask_validating_stores f b j w th p :
  PipelineTask_validating f b j w th = Ok p ->
  pt_branch p = b /\ pt_join p = j /\ pt_workers p = w /\ pt_throttle p = th.
Proof.
  unfold PipelineTask_validating.
  destruct (Task_init _ _ _ _ _ _ _ _) as [t |] eqn:E; [| discriminate].
  intros [= <-]; simpl. unfold Task_init in E.
  destruct (w <? 1); [discriminate |]. destruct (th <? 0); [discriminate |].
  repeat match type of E with
         | (if ?c then _ else _) = _ => destruct c; [discriminate |]
         end.
  by injection E as <-.
Qed.

(** C8, amended, at a synchronous [PipelineTask]. *)
Lemma asynchronize_fields_witness :
  exists d',
    asynchronize PipelineTask_validating (OfPipelineTask plain_pipeline_task)
                 "tp" "pp" = Ok d'
    /\ preserves_fields (OfPipelineTask plain_pipeline_task) d'.
Proof.
  eexists. split; [reflexivity|].
  apply (asynchronize_fields PipelineTask_validating
           (OfPipelineTask plain_pipeline_task) _ "tp" "pp").
  - exact PipelineTask_validating_stores.
  - reflexivity.
  - reflexivity.
Defined.

(** ** Runs of the workers of a stage *)

(** Case analysis on a transition of a worker at [p]. *)
Ltac trans_cases p Ht :=
  destruct p as [? | [| ? ?] | ? ? | [| ? ?] [? |] [? |]
                 | ? | ? | ? | ? ? | [| ?] ? | ?];
  simpl in Ht;
  try discriminate Ht;
  repeat match type of Ht with
         | context [shutdown ?s] => destruct (shutdown s) eqn:?
         | context [isinstance_Exception ?e] =>
             destruct (isinstance_Exception e) eqn:?
         | context [?v =? ?n] => destruct (Z.eqb_spec v n)
         | context [match ?r with Source _ => _ | Relay _ => _ end] =>
             destruct r eqn:?
         end;
  try discriminate Ht;
  injection Ht as <- <-.

Section Runs.

Context {input payload : Type}.
Variable enqueue : input -> list payload * option PyExc.

Local Abbreviation pc := (@pc input payload).
Local Abbreviation event := (@event input payload).
Local Abbreviation state := (@state input payload).
Local Abbreviation trans := (trans enqueue).
Local Abbreviation step := (step enqueue).
Local Abbreviation exec := (exec enqueue).
Local Abbreviation run := (run enqueue).
Local Abbreviation steps_left := (steps_left enqueue).
Local Abbreviation total_left := (total_left enqueue).
Local Abbreviation Producer_start := (@Producer_start input payload).
Local Abbreviation ProducerConsumer_start :=
  (@ProducerConsumer_start input payload).

Lemma run_app (r : runner) (sched sched' : list action) (s : state) :
  run r (sched ++ sched') s = run r sched' (run r sched s).
Proof. apply fold_left_app. Qed.

Lemma run_cons (r : runner) (a : action) (sched : list action) (s : state) :
  run r (a :: sched) s = run r sched (exec r a s).
Proof. reflexivity. Qed.

(** What a step of the stage is. *)
Lemma exec_cases (r : runner) (a : action) (s : state) :
  exec r a s = s
  \/ (a = ShutdownElsewhere
      /\ exec r a s
         = mkState true (q_out s) (q_err s) (workers_done s) (procs s) (log s))
  \/ (exists i p p' ev,
        a = Run i /\ procs s !! i = Some p /\ trans r s p = Some (p', ev)
        /\ exec r a s = apply_event i ev (set_pc i p' s)).
Proof.
  destruct a as [i |]; simpl.
  - unfold step. destruct (procs s !! i) as [p |] eqn:Hp; [| by left].
    destruct (trans r s p) as [[p' ev] |] eqn:Ht; [| by left].
    right; right. by exists i, p, p', ev.
  - right; left. done.
Qed.

Lemma apply_event_fields (i : nat) (ev : option event) (s : state) :
  procs (apply_event i ev s) = procs s
  /\ log (apply_event i ev s)
     = match ev with Some e => (i, e) :: log s | None => log s end
  /\ shutdown (apply_event i ev s) = shutdown_after (shutdown s) ev
  /\ q_err (apply_event i ev s) = q_err_after (q_err s) ev.
Proof. destruct ev as [[] |]; simpl; done. Qed.

Lemma events_of_cons_eq (i : nat) (e : event) (l : list (nat * event)) :
  events_of i ((i, e) :: l) = e :: events_of i l.
Proof. simpl. by rewrite Nat.eqb_refl. Qed.

Lemma events_of_cons_ne (i j : nat) (e : event) (l : list (nat * event)) :
  i <> j -> events_of i ((j, e) :: l) = events_of i l.
Proof. intros H. simpl. apply Nat.eqb_neq in H. by rewrite H. Qed.

(** A property of the states of a run that every step keeps. *)
Lemma run_invariant (r : runner) (P : state -> Prop) :
  (forall a s, P s -> P (exec r a s)) ->
  forall sched s, P s -> P (run r sched s).
Proof.
  intros Hstep sched. induction sched as [| a sched IH]; intros s Hs; [done |].
  rewrite run_cons. apply IH, Hstep, Hs.
Qed.

(** A property of one worker's position and own record, which may rely
    on the flag being set and on what the error sink holds, is kept by a
    run as soon as the worker's own steps keep it. *)
Lemma local_invariant (r : runner) (i : nat)
    (L : bool -> list PyExc -> pc -> list event -> Prop) :
  (forall b q b' q' p evs,
     L b q p evs -> (b = true -> b' = true) -> (forall e, e ∈ q -> e ∈ q') ->
     L b' q' p evs) ->
  (forall s p p' ev evs,
     L (shutdown s) (q_err s) p evs -> trans r s p = Some (p', ev) ->
     L (shutdown_after (shutdown s) ev) (q_err_after (q_err s) ev) p'
       (ev_cons ev evs)) ->
  forall sched s0 p0,
    procs s0 !! i = Some p0 ->
    L (shutdown s0) (q_err s0) p0 (events_of i (log s0)) ->
    exists p, procs (run r sched s0) !! i = Some p
      /\ L (shutdown (run r sched s0)) (q_err (run r sched s0)) p
           (events_of i (log (run r sched s0))).
Proof.
  intros Hmono Hown sched.
  induction sched as [| a sched IH]; intros s0 p0 Hp0 HL; [by exists p0 |].
  rewrite run_cons.
  destruct (exec_cases r a s0)
    as [-> | [[_ ->] | (j & p & p' & ev & _ & Hp & Ht & ->)]].
  - by apply (IH s0 p0).
  - apply (IH _ p0); simpl; [done |]. eapply Hmono; eauto.
  - destruct (apply_event_fields j ev (set_pc j p' s0)) as (Hprocs & Hlog & Hsh & Hq).
    destruct (decide (j = i)) as [-> | Hne].
    + apply (IH _ p').
      * rewrite Hprocs. simpl. apply list_lookup_insert_eq.
        by eapply lookup_lt_Some.
      * rewrite Hsh, Hq, Hlog. simpl.
        assert (p = p0) as -> by congruence.
        specialize (Hown s0 p0 p' ev _ HL Ht).
        destruct ev as [e |]; simpl in *; [by rewrite Nat.eqb_refl | done].
    + apply (IH _ p0).
      * rewrite Hprocs. simpl. by rewrite list_lookup_insert_ne.
      * rewrite Hsh, Hq, Hlog. simpl.
        assert (Hevs : events_of i (match ev with
                                    | Some e => (j, e) :: log s0
                                    | None => log s0
                                    end) = events_of i (log s0)).
        { destruct ev; [| done]. apply events_of_cons_ne. congruence. }
        rewrite Hevs. eapply Hmono; [exact HL | |].
        -- destruct ev as [[] |]; simpl; auto.
        -- destruct ev as [[] |]; simpl; auto. intros e' He'.
           apply elem_of_app. by left.
Qed.

(** *** Every worker leaves *)

Lemma steps_left_zero (r : runner) (p : pc) :
  steps_left r p = O -> exited p = true.
Proof. destruct p as [| | | ? ? [|] | | | | | |]; simpl; try lia; done. Qed.

Lemma trans_progress (r : runner) (s : state) (p : pc) :
  role_ok r p -> exited p = false ->
  exists p' ev, trans r s p = Some (p', ev) /\ role_ok r p'
    /\ (steps_left r p' < steps_left r p)%nat.
Proof.
  intros Hrole Hex.
  destruct p as [a | [| x rest] | x rest | [| o outs] [e |] [rest |]
                 | e | e | pend | v pend | [| n] pend | pend];
    simpl in *; try discriminate Hex;
    repeat match goal with
           | |- context [shutdown ?s] => destruct (shutdown s)
           | |- context [isinstance_Exception ?e] => destruct (isinstance_Exception e)
           | |- context [?v =? ?n] => destruct (v =? n)
           end;
    destruct r; simpl in *; try done;
    eexists _, _; (split; [reflexivity |]); simpl; unfold call_steps; (split; [done | lia]).
Qed.

Lemma sum_list_with_insert {A} (f : A -> nat) (l : list A) (i : nat) (x y : A) :
  l !! i = Some x ->
  (sum_list_with f (<[i := y]> l) + f x = sum_list_with f l + f y)%nat.
Proof.
  revert i. induction l as [| z l IH]; intros [| i] H; simpl in *; try done.
  - injection H as ->. lia.
  - specialize (IH i H). lia.
Qed.

Lemma sum_list_with_pos {A} (f : A -> nat) (l : list A) :
  (0 < sum_list_with f l)%nat -> exists i x, l !! i = Some x /\ (0 < f x)%nat.
Proof.
  induction l as [| z l IH]; simpl; [lia |]. intros H.
  destruct (f z) as [| n] eqn:E.
  - destruct IH as (i & x & Hi & Hx); [lia |]. by exists (S i), x.
  - exists O, z. split; [done | lia].
Qed.

Lemma sum_list_with_zero {A} (f : A -> nat) (l : list A) (i : nat) (x : A) :
  sum_list_with f l = O -> l !! i = Some x -> f x = O.
Proof.
  revert i. induction l as [| z l IH]; intros [| i] H Hi; simpl in *; try done.
  - injection Hi as ->. lia.
  - apply (IH i); [lia | done].
Qed.

Lemma trans_role_ok (r : runner) (s : state) (p p' : pc) (ev : option event) :
  trans r s p = Some (p', ev) -> role_ok r p -> role_ok r p'.
Proof. intros Ht. trans_cases p Ht; subst; simpl; try done; destruct r; done. Qed.

Lemma roles_ok_exec (r : runner) (a : action) (s : state) :
  roles_ok r s -> roles_ok r (exec r a s).
Proof.
  intros H.
  destruct (exec_cases r a s)
    as [-> | [[_ ->] | (j & p & p' & ev & _ & Hp & Ht & ->)]]; [done | done |].
  intros i q. destruct (apply_event_fields j ev (set_pc j p' s)) as (-> & _).
  simpl. destruct (decide (j = i)) as [-> | Hne].
  - rewrite list_lookup_insert_eq by (by eapply lookup_lt_Some).
    intros [= <-]. eapply trans_role_ok; eauto.
  - rewrite list_lookup_insert_ne by done. apply H.
Qed.

Lemma roles_ok_run (r : runner) (sched : list action) (s : state) :
  roles_ok r s -> roles_ok r (run r sched s).
Proof. apply run_invariant. intros a s'. apply roles_ok_exec. Qed.

(** From any state of a stage there is a schedule after which every
    worker has left. *)
Lemma completes (r : runner) (s : state) :
  roles_ok r s -> exists sched, all_exited (run r sched s).
Proof.
  remember (total_left r s) as n eqn:Hn.
  revert s Hn. induction n as [n IH] using lt_wf_ind. intros s Hn Hroles.
  destruct (decide (total_left r s = O)) as [Hz | Hpos].
  - exists []. intros i p Hp. apply (steps_left_zero r).
    eapply sum_list_with_zero; eauto.
  - destruct (sum_list_with_pos (steps_left r) (procs s)) as (i & p & Hp & Hlt).
    { fold (total_left r s). lia. }
    destruct (trans_progress r s p) as (p' & ev & Ht & _ & Hdec).
    { by eapply Hroles. }
    { destruct (exited p) eqn:E; [| done]. destruct p; try done. simpl in Hlt. lia. }
    assert (Hex : exec r (Run i) s = apply_event i ev (set_pc i p' s)).
    { simpl. unfold step. by rewrite Hp, Ht. }
    destruct (IH (total_left r (exec r (Run i) s))) with (s := exec r (Run i) s)
      as [sched Hsched].
    + rewrite Hex. unfold total_left.
      destruct (apply_event_fields i ev (set_pc i p' s)) as (-> & _). simpl.
      pose proof (sum_list_with_insert (steps_left r) (procs s) i p p' Hp).
      subst n. fold (total_left r s). unfold total_left. lia.
    + done.
    + by apply roles_ok_exec.
    + exists (Run i :: sched). by rewrite run_cons.
Qed.

(** *** The queue against the record *)

Lemma wf_state_exec (r : runner) (a : action) (s : state) :
  wf_state s -> wf_state (exec r a s).
Proof.
  intros [Hq Hlog].
  destruct (exec_cases r a s)
    as [-> | [[_ ->] | (j & p & p' & ev & _ & Hp & Ht & ->)]]; [done | done |].
  apply lookup_lt_Some in Hp.
  assert (Hin : forall e k ev', (k, ev') ∈ (j, e) :: log s ->
                  (k < length (<[j := p']> (procs s)))%nat).
  { intros e k ev' [[= -> ->] | H]%elem_of_cons; rewrite length_insert; eauto. }
  destruct ev as [[] |]; split; simpl; eauto;
    try (intros k ev' H; rewrite length_insert; eauto).
  by rewrite Hq.
Qed.

Lemma wf_state_run (r : runner) (sched : list action) (s : state) :
  wf_state s -> wf_state (run r sched s).
Proof. apply run_invariant. intros a s'. apply wf_state_exec. Qed.

Lemma length_procs_exec (r : runner) (a : action) (s : state) :
  length (procs (exec r a s)) = length (procs s).
Proof.
  destruct (exec_cases r a s)
    as [-> | [[_ ->] | (j & p & p' & ev & _ & Hp & Ht & ->)]]; [done | done |].
  destruct (apply_event_fields j ev (set_pc j p' s)) as (-> & _).
  simpl. apply length_insert.
Qed.

Lemma length_procs_run (r : runner) (sched : list action) (s : state) :
  length (procs (run r sched s)) = length (procs s).
Proof.
  revert s. induction sched as [| a sched IH]; intros s; [done |].
  rewrite run_cons, IH. apply length_procs_exec.
Qed.

Lemma puts_rev_single (l : list (nat * event)) :
  (forall j ev, (j, ev) ∈ l -> j = O) -> puts_rev l = puts_ev (events_of 0 l).
Proof.
  induction l as [| [j ev] l IH]; intros H; [done |].
  assert (j = O) as -> by (eapply H; left).
  simpl. rewrite IH by (intros; eapply H; right; eauto).
  by destruct ev.
Qed.

Lemma puts_ev_app (evs evs' : list event) :
  puts_ev (evs ++ evs') = puts_ev evs ++ puts_ev evs'.
Proof.
  induction evs as [| ev evs IH]; [done |]. simpl.
  destruct ev; simpl; by rewrite ?IH.
Qed.

Lemma puts_ev_sentinels (n : nat) :
  puts_ev (replicate n (EvPut StopSentinel : event)) = replicate n StopSentinel.
Proof. induction n as [| n IH]; simpl; by rewrite ?IH. Qed.

Lemma rev_replicate {A} (n : nat) (x : A) : rev (replicate n x) = replicate n x.
Proof.
  induction n as [| n IH]; [done |]. simpl. rewrite IH.
  clear IH. induction n as [| n IH]; [done |]. simpl. by rewrite IH.
Qed.

(** *** The source worker *)

Lemma source_progress_step (p : Producer) (a : input)
    (s : state) (q q' : pc) (ev : option event) (evs : list event) :
  source_progress enqueue a (Z.to_nat (p_n_consumers p)) q evs ->
  trans (Source p) s q = Some (q', ev) ->
  source_progress enqueue a (Z.to_nat (p_n_consumers p)) q' (ev_cons ev evs).
Proof.
  intros HL Ht. set (n := Z.to_nat (p_n_consumers p)) in *.
  trans_cases q Ht; simpl in *; try done;
    repeat match goal with
           | H : _ /\ _ |- _ => destruct H
           | H : exists _, _ |- _ => destruct H
           end;
    subst; rewrite ?app_nil_r, ?Nat.sub_0_r in *; rewrite ?Nat.sub_diag;
    try (split; [done || lia |]);
    try (by rewrite <- app_assoc);
    try (by eexists; split; [reflexivity |]);
    try done.
  match goal with
  | |- context [(n - ?k)%nat] => replace (n - k)%nat with (S (n - S k)) by lia
  end.
  by eexists.
Qed.

(** C2: whatever the call of the enqueue strategy does, return after
    writing some items or raise, the source worker ends by putting exactly
    [n_consumers] sentinels on its output queue, after everything else it
    does, and [n_consumers] is the next task's concurrency, or 1 when there
    is no next task; and the worker does get there. *)
Theorem source_worker_sentinels (task : Task) (next_task : option Task)
    (p : Producer) (a : input) (sched : list action) :
  Producer_init task next_task = Ok p ->
  (forall nt, next_task = Some nt -> valid_task nt) ->
  let s := run (Source p) sched (Producer_start a) in
  let n := consumers_of next_task in
  p_n_consumers p = n
  /\ Z.of_nat (Z.to_nat n) = n
  /\ (forall pend, procs s !! O = Some (Exited pend) ->
       q_out s = (Data <$> fst (enqueue a)) ++ replicate (Z.to_nat n) StopSentinel
       /\ exists evs0,
            events_of 0 (log s) = replicate (Z.to_nat n) (EvPut StopSentinel) ++ evs0
            /\ rev (puts_ev evs0) = Data <$> fst (enqueue a))
  /\ exists sched' pend, procs (run (Source p) sched' s) !! O = Some (Exited pend).
Proof.
  intros Hinit Hnext s n.
  assert (Hn : p_n_consumers p = n).
  { unfold Producer_init in Hinit.
    destruct (concurrency task >? 1); [discriminate |].
    destruct (join task); [discriminate |]. by injection Hinit as <-. }
  assert (Hpos : 1 <= n).
  { unfold n, consumers_of. destruct next_task as [nt |]; [| lia].
    by destruct (Hnext nt eq_refl). }
  destruct (local_invariant (Source p) 0
              (fun _ _ => source_progress enqueue a (Z.to_nat (p_n_consumers p))))
    with (sched := sched) (s0 := Producer_start a : state) (p0 := Call a : pc)
    as (q & Hq & HL); try done.
  { intros. by eapply source_progress_step. }
  fold s in Hq, HL. rewrite Hn in HL.
  assert (Hwf : wf_state s).
  { apply wf_state_run. split; [done |]. intros j ev H. by apply elem_of_nil in H. }
  assert (Hlen : length (procs s) = 1%nat) by apply length_procs_run.
  split; [done |]. split; [lia |]. split.
  - intros pend Hex. rewrite Hq in Hex. injection Hex as ->. simpl in HL.
    destruct HL as (evs0 & Hevs & Hputs). split; [| by exists evs0].
    destruct Hwf as [-> Hids].
    rewrite puts_rev_single by (intros j ev H; apply Hids in H; lia).
    rewrite Hevs, puts_ev_app, puts_ev_sentinels, rev_app_distr, rev_replicate.
    by rewrite Hputs.
  - destruct (completes (Source p) s) as [sched' Hall].
    { apply roles_ok_run. intros [| i] q'; simpl; [| done]. by intros [= <-]. }
    destruct (lookup_lt_is_Some_2 (procs (run (Source p) sched' s)) 0) as [q' Hq'].
    { rewrite length_procs_run. lia. }
    exists sched'. specialize (Hall _ _ Hq'). destruct q'; try done. by eexists.
Qed.

(** *** Exceptions raised by a call *)

Lemma elem_of_events_of (i : nat) (e : event) (l : list (nat * event)) :
  e ∈ events_of i l <-> (i, e) ∈ l.
Proof.
  induction l as [| [j e'] l IH]; simpl.
  - split; intros H; by apply elem_of_nil in H.
  - destruct (Nat.eqb_spec i j) as [-> | Hne].
    + rewrite !elem_of_cons, IH. split; intros [H | H]; auto; left; congruence.
    + rewrite elem_of_cons, IH. split; [auto |]. intros [H | H]; [congruence | done].
Qed.

Lemma handled_step (r : runner) (s : state) (p p' : pc)
    (ev : option event) (evs : list event) :
  handled (shutdown s) (q_err s) p evs ->
  trans r s p = Some (p', ev) ->
  handled (shutdown_after (shutdown s) ev) (q_err_after (q_err s) ev) p'
          (ev_cons ev evs).
Proof.
  intros HL Ht e He.
  assert (Hold : EvRaise e ∈ evs \/ ev = Some (EvRaise e)).
  { destruct ev as [e' |]; simpl in He; [| by left].
    apply elem_of_cons in He as [<- | He]; [by right | by left]. }
  clear He. destruct Hold as [He | Hev].
  - specialize (HL e He).
    destruct (isinstance_Exception e) eqn:Hexc;
      trans_cases p Ht; simpl in *; try done;
      try (destruct r; simpl; done);
      try (destruct HL as (-> & -> & Hq); done).
    destruct HL as [-> Hs].
    destruct r; simpl; repeat split; try done;
      apply elem_of_app; right; by apply list_elem_of_singleton.
  - trans_cases p Ht; try discriminate Hev; injection Hev as <-;
      match goal with
      | H : isinstance_Exception _ = _ |- _ => rewrite H
      end;
      destruct r; done.
Qed.

Lemma handled_mono (b : bool) (q : list PyExc) (b' : bool) (q' : list PyExc)
    (p : pc) (evs : list event) :
  handled b q p evs -> (b = true -> b' = true) -> (forall e, e ∈ q -> e ∈ q') ->
  handled b' q' p evs.
Proof.
  intros HL Hb Hq e He. specialize (HL e He).
  destruct (isinstance_Exception e); [| done].
  destruct p; try done; intuition.
Qed.

Lemma start_lookup (r : runner) (sched : list action) (s0 : state)
    (i : nat) (p : pc) :
  procs (run r sched s0) !! i = Some p -> exists p0, procs s0 !! i = Some p0.
Proof.
  intros H. apply lookup_lt_Some in H. rewrite length_procs_run in H.
  by apply lookup_lt_is_Some_2.
Qed.

Lemma faults_contained_from (r : runner) (s0 : state) :
  log s0 = [] -> faults_contained enqueue isinstance_Exception r s0.
Proof.
  intros Hlog sched i e pend s Hin Hc Hex.
  destruct (start_lookup r sched s0 i _ Hex) as [p0 Hp0].
  destruct (local_invariant r i handled handled_mono (handled_step r))
    with (sched := sched) (s0 := s0) (p0 := p0) as (q & Hq & HL); [done | |].
  { rewrite Hlog. intros e' He'. by apply elem_of_nil in He'. }
  fold s in Hq, HL. rewrite Hex in Hq. injection Hq as <-.
  specialize (HL e). rewrite Hc in HL. simpl in HL.
  destruct HL as (-> & Hs & He); [by apply elem_of_events_of |]. done.
Qed.

Lemma faults_escape_from (r : runner) (s0 : state) :
  log s0 = [] -> faults_escape enqueue r s0.
Proof.
  intros Hlog sched i e pend s Hin Hc Hex.
  destruct (start_lookup r sched s0 i _ Hex) as [p0 Hp0].
  destruct (local_invariant r i handled handled_mono (handled_step r))
    with (sched := sched) (s0 := s0) (p0 := p0) as (q & Hq & HL); [done | |].
  { rewrite Hlog. intros e' He'. by apply elem_of_nil in He'. }
  fold s in Hq, HL. rewrite Hex in Hq. injection Hq as <-.
  specialize (HL e). rewrite Hc in HL. simpl in HL.
  apply HL. by apply elem_of_events_of.
Qed.

(** C5, amended: an exception raised by a call of the enqueue strategy
    that is an instance of [Exception] is caught by the worker, source or
    relay: the worker leaves with nothing pending, the flag is set and the
    exception is in the error sink. An exception that is not an instance
    of [Exception] is not caught: it leaves the worker after the [finally]
    block. *)
Theorem worker_faults_contained :
  (forall (p : Producer) (a : input),
     faults_contained enqueue isinstance_Exception (Source p) (Producer_start a)
     /\ faults_escape enqueue (Source p) (Producer_start a))
  /\ (forall (rr : ProducerConsumer) (seqs : nat -> list input),
       faults_contained enqueue isinstance_Exception (Relay rr)
                        (ProducerConsumer_start rr seqs)
       /\ faults_escape enqueue (Relay rr) (ProducerConsumer_start rr seqs)).
Proof.
  split; intros; split;
    first [by apply faults_contained_from | by apply faults_escape_from].
Qed.

(** *** What a relay worker dequeues *)

Lemma consumed_step (rr : ProducerConsumer) (xs : list input) (s : state)
    (p p' : pc) (ev : option event) (evs : list event) :
  consumed enqueue xs p evs -> trans (Relay rr) s p = Some (p', ev) ->
  consumed enqueue xs p' (ev_cons ev evs).
Proof.
  intros HL Ht. unfold consumed in *.
  trans_cases p Ht; simpl in *; try done;
    repeat match goal with
           | H : _ /\ _ |- _ => destruct H
           | H : exists _, _ |- _ => destruct H
           end;
    rewrite ?app_nil_r in *; subst;
    repeat split;
    try (by rewrite <- app_assoc);
    try (by eauto);
    try congruence.
  - exists []. by rewrite app_nil_r.
Qed.

(** *** The flag and the enqueues of a relay worker *)

Lemma guarded_step (rr : ProducerConsumer) (s : state)
    (p p' : pc) (ev : option event) (evs : list event) :
  guarded_at p evs -> trans (Relay rr) s p = Some (p', ev) ->
  guarded_at p' (ev_cons ev evs).
Proof.
  intros [HL Hp] Ht. unfold guarded_at.
  trans_cases p Ht; simpl in *; try done; by rewrite Hp, HL.
Qed.

Lemma quiet_step (r : runner) (n : nat) (s : state)
    (p p' : pc) (ev : option event) (evs : list event) :
  quiet n (shutdown s) p evs -> trans r s p = Some (p', ev) ->
  quiet n (shutdown_after (shutdown s) ev) p' (ev_cons ev evs).
Proof.
  intros (Hs & Hp & Hn) Ht. unfold quiet.
  trans_cases p Ht; simpl in *; try done; try congruence; by destruct r.
Qed.

Lemma relay_start_lookup (rr : ProducerConsumer) (seqs : nat -> list input)
    (i : nat) (p : pc) :
  procs (ProducerConsumer_start rr seqs : state) !! i = Some p -> p = Next (seqs i).
Proof.
  simpl. rewrite list_lookup_fmap. intros H.
  destruct (seq 0 (Z.to_nat (pc_n_workers rr)) !! i) as [j |] eqn:E; [| done].
  apply lookup_seq in E as [-> _]. simpl in H. congruence.
Qed.

Lemma relay_start_wf (rr : ProducerConsumer) (seqs : nat -> list input) :
  wf_state (ProducerConsumer_start rr seqs : state).
Proof. split; [done |]. intros j ev H. by apply elem_of_nil in H. Qed.

Lemma events_of_absent (i : nat) (l : list (nat * event)) :
  (forall ev, (i, ev) ∉ l) -> events_of i l = [].
Proof.
  intros H. destruct (events_of i l) as [| e evs] eqn:E; [done |].
  exfalso. apply (H e), elem_of_events_of. rewrite E. left.
Qed.

Lemma unobserving_step (p : Producer) (s : state)
    (q q' : pc) (ev : option event) (evs : list event) :
  unobserving q evs -> trans (Source p) s q = Some (q', ev) ->
  unobserving q' (ev_cons ev evs).
Proof.
  intros [HL Hq] Ht. unfold unobserving.
  trans_cases q Ht; simpl in *; done.
Qed.

Lemma guarded_at_run (rr : ProducerConsumer) (seqs : nat -> list input)
    (sched : list action) (i : nat) (p : pc) :
  let s := run (Relay rr) sched (ProducerConsumer_start rr seqs) in
  procs s !! i = Some p -> guarded_at p (events_of i (log s)).
Proof.
  intros s Hp.
  destruct (start_lookup (Relay rr) sched _ i _ Hp) as [p0 Hp0].
  destruct (local_invariant (Relay rr) i (fun _ _ => guarded_at))
    with (sched := sched) (s0 := ProducerConsumer_start rr seqs) (p0 := p0)
    as (q & Hq & HL); try done.
  - intros. by eapply guarded_step.
  - apply relay_start_lookup in Hp0 as ->. done.
  - fold s in Hq, HL. congruence.
Qed.

Lemma relay_guards (rr : ProducerConsumer) (seqs : nat -> list input) :
  flag_guards_enqueue enqueue (Relay rr) (ProducerConsumer_start rr seqs).
Proof.
  split; [| split].
  - intros sched i.
    set (s := run (Relay rr) sched (ProducerConsumer_start rr seqs)).
    destruct (procs s !! i) as [p |] eqn:Hp.
    + by destruct (guarded_at_run rr seqs sched i p Hp) as [HL _].
    + rewrite events_of_absent; [done |]. intros ev Hev.
      destruct (wf_state_run (Relay rr) sched _ (relay_start_wf rr seqs)) as [_ Hids].
      apply Hids in Hev. apply lookup_ge_None in Hp. fold s in Hev. lia.
  - intros sched i p s Hp Hcall.
    destruct (guarded_at_run rr seqs sched i p Hp) as [_ Hpc].
    by destruct p as [| | | ? ? [|] | | | | | |].
  - intros sched sched' i p s Hs Hp Hcall.
    pose proof (guarded_at_run rr seqs sched i p Hp) as Hrelay.
    destruct (local_invariant (Relay rr) i
                (fun b _ => quiet (data_put_by i (log s)) b))
      with (sched := sched') (s0 := s) (p0 := p)
      as (q & Hq & _ & Hpos & HL); try done.
    + intros b q b' q' p1 evs (Hb & ? & ?) Hbb' _. split; auto.
    + intros. by eapply quiet_step.
    + repeat split; try done. destruct Hrelay as [_ Hpc]. by destruct p.
    + split; [exact HL |]. intros p' Hp'. rewrite Hq in Hp'.
      injection Hp' as <-. by destruct q.
Qed.

Lemma source_never_observes (p : Producer) (a : input) :
  never_observes enqueue (Source p) (Producer_start a).
Proof.
  intros sched i.
  destruct (decide (i = O)) as [-> | Hne].
  - destruct (local_invariant (Source p) 0 (fun _ _ => unobserving))
      with (sched := sched) (s0 := Producer_start a) (p0 := Call a : pc)
      as (q & _ & HL & _); try done.
    intros. by eapply unobserving_step.
  - rewrite events_of_absent; [done |]. intros ev Hev.
    assert (Hwf : wf_state (Producer_start a : state)).
    { split; [done |]. intros j ev' H. by apply elem_of_nil in H. }
    destruct (wf_state_run (Source p) sched _ Hwf) as [_ Hids].
    apply Hids in Hev. rewrite length_procs_run in Hev. simpl in Hev. lia.
Qed.

(** C4, amended: in a relay stage every worker observes the flag before
    each call of its enqueue strategy and makes the call only when it found
    the flag unset: a worker inside a call has, going back from its
    position past the output the call has put, the observation that found
    the flag unset, so every item of output and every raise belongs to
    such a call; and once the flag is set a worker that is not in the
    middle of a call begins no call again and puts no more output. The
    worker of a source stage never observes the flag. *)
Theorem relay_flag_guards_enqueue :
  (forall (rr : ProducerConsumer) (seqs : nat -> list input),
     flag_guards_enqueue enqueue (Relay rr) (ProducerConsumer_start rr seqs))
  /\ (forall (p : Producer) (a : input),
       never_observes enqueue (Source p) (Producer_start a)).
Proof. split; [apply relay_guards | apply source_never_observes]. Qed.

Lemma consumed_at_exit (rr : ProducerConsumer) (seqs : nat -> list input)
    (sched : list action) (i : nat) (pend : option PyExc) :
  let s := run (Relay rr) sched (ProducerConsumer_start rr seqs) in
  procs s !! i = Some (Exited pend) ->
  consumed enqueue (seqs i) (Exited pend) (events_of i (log s)).
Proof.
  intros s Hex.
  destruct (start_lookup (Relay rr) sched _ i _ Hex) as [p0 Hp0].
  destruct (local_invariant (Relay rr) i (fun _ _ => consumed enqueue (seqs i)))
    with (sched := sched) (s0 := ProducerConsumer_start rr seqs) (p0 := p0)
    as (q & Hq & HL); try done.
  - intros. by eapply consumed_step.
  - apply relay_start_lookup in Hp0 as ->. done.
  - fold s in Hq, HL. rewrite Hex in Hq. by injection Hq as <-.
Qed.

(** C10, amended: a relay worker that has left has consumed its dequeue
    sequence to exhaustion unless one of its own calls raised, whenever
    and however often the flag was set meanwhile; what it consumed is in
    any case the beginning of the sequence, and when a call raised, it
    stopped at the input of that call. *)
Theorem relay_worker_drains_unless_raised (rr : ProducerConsumer)
    (seqs : nat -> list input) :
  drains_unless enqueue raised rr seqs
  /\ stops_where_raised enqueue rr seqs.
Proof.
  split.
  - intros sched i pend s Hex.
    destruct (consumed_at_exit rr seqs sched i pend Hex) as (H1 & H2 & _). done.
  - intros sched i pend s Hex Hr.
    destruct (consumed_at_exit rr seqs sched i pend Hex) as (_ & _ & H3).
    by apply H3.
Qed.

(** *** The completion counter *)

Lemma count_if_insert {A} (f : A -> bool) (l : list A) (i : nat) (x y : A) :
  l !! i = Some x ->
  (count_if f (<[i := y]> l) + (if f x then 1 else 0)
   = count_if f l + (if f y then 1 else 0))%nat.
Proof.
  revert i. induction l as [| z l IH]; intros [| i] H; simpl in *; try done.
  - injection H as ->. lia.
  - specialize (IH i H). lia.
Qed.

Lemma count_if_le {A} (f : A -> bool) (l : list A) :
  (count_if f l <= length l)%nat.
Proof. induction l as [| z l IH]; simpl; [lia |]. destruct (f z); lia. Qed.

Lemma count_if_lt {A} (f : A -> bool) (l : list A) (i : nat) (x : A) :
  l !! i = Some x -> f x = false -> (count_if f l < length l)%nat.
Proof.
  revert i. induction l as [| z l IH]; intros [| i] H Hx; simpl in *; try done.
  - injection H as ->. rewrite Hx. pose proof (count_if_le f l). lia.
  - specialize (IH i H Hx). destruct (f z); lia.
Qed.

Lemma count_if_full {A} (f : A -> bool) (l : list A) :
  count_if f l = length l <-> forall i x, l !! i = Some x -> f x = true.
Proof.
  split.
  - intros Hc i x Hi. destruct (f x) eqn:E; [done |].
    pose proof (count_if_lt f l i x Hi E). lia.
  - induction l as [| z l IH]; intros H; simpl; [done |].
    rewrite (H O z eq_refl), IH; [done |]. intros i x Hi. by apply (H (S i)).
Qed.

Lemma wrap_c_int_small (z : Z) :
  -2147483648 <= z <= c_int_max -> wrap_c_int z = z.
Proof.
  unfold wrap_c_int, c_int_max. intros H.
  rewrite Z.mod_small; lia.
Qed.

Lemma sentinels_put_by_pos (i : nat) (l : list (nat * event)) :
  (i, EvPut StopSentinel) ∈ l -> (0 < sentinels_put_by i l)%nat.
Proof.
  intros H. apply elem_of_events_of in H. unfold sentinels_put_by.
  induction (events_of i l) as [| e evs IH]; [by apply elem_of_nil in H |].
  apply elem_of_cons in H as [<- | H]; simpl; [lia |].
  specialize (IH H). lia.
Qed.

Lemma sentinels_put_single (i0 : nat) (l : list (nat * event)) :
  (forall j, j <> i0 -> sentinels_put_by j l = O) ->
  sentinels_put l = sentinels_put_by i0 l.
Proof.
  unfold sentinels_put, sentinels_put_by.
  induction l as [| [j e] l IH]; intros H; [done |]. simpl.
  assert (IH' : count_if (fun e => is_sentinel_put e.2) l
                = count_if is_sentinel_put (events_of i0 l)).
  { apply IH. intros k Hk. specialize (H k Hk). simpl in H.
    destruct (k =? j)%nat; simpl in H; [| done]. lia. }
  destruct (Nat.eqb_spec i0 j) as [-> | Hne]; simpl; [by rewrite IH' |].
  rewrite IH'. specialize (H j (not_eq_sym Hne)). simpl in H.
  rewrite Nat.eqb_refl in H. simpl in H. by destruct (is_sentinel_put e).
Qed.

Lemma sentinels_put_none (l : list (nat * event)) :
  (forall j, sentinels_put_by j l = O) -> sentinels_put l = O.
Proof.
  intros H. rewrite (sentinels_put_single O) by auto. apply H.
Qed.

Lemma sentinels_in_queue (l : list (nat * event)) :
  sentinels_in (rev (puts_rev l)) = sentinels_put l.
Proof.
  unfold sentinels_in, sentinels_put.
  assert (Happ : forall (q q' : list (@item payload)),
            count_if is_sentinel (q ++ q')
            = (count_if is_sentinel q + count_if is_sentinel q')%nat).
  { induction q as [| x q IH]; intros q'; simpl; [done |]. rewrite IH. lia. }
  induction l as [| [j e] l IH]; [done |]. simpl.
  destruct e as [| | [|] | | | |]; simpl; rewrite ?Happ, ?IH; simpl; lia.
Qed.

Lemma trans_increment_or_not (rr : ProducerConsumer) (s : state)
    (p p' : pc) (ev : option event) :
  trans (Relay rr) s p = Some (p', ev) ->
  (exists pend,
     p = Increment pend
     /\ p' = Compare (increment_workers_done rr (workers_done s)) pend
     /\ ev = Some (EvIncr (increment_workers_done rr (workers_done s))))
  \/ (incremented p' = incremented p
      /\ (forall v, ev <> Some (EvIncr v))
      /\ forall pend, p <> Increment pend).
Proof.
  intros Ht. trans_cases p Ht; simpl;
    try (right; repeat split; done).
  left. eexists. repeat split; congruence.
Qed.

Lemma sentinels_put_by_cons (i j : nat) (e : event) (l : list (nat * event)) :
  sentinels_put_by i ((j, e) :: l)
  = ((if (i =? j)%nat && is_sentinel_put e then 1 else 0) + sentinels_put_by i l)%nat.
Proof.
  unfold sentinels_put_by. simpl. destruct (i =? j)%nat; simpl; [| done].
  by destruct (is_sentinel_put e).
Qed.

Lemma on_finish_frame (rr : ProducerConsumer) (l : list (nat * event))
    (i j : nat) (e : event) (p : pc) :
  i <> j -> on_finish rr l i p -> on_finish rr ((j, e) :: l) i p.
Proof.
  intros Hne. unfold on_finish. rewrite sentinels_put_by_cons.
  apply Nat.eqb_neq in Hne as Hneb. rewrite Hneb. simpl.
  assert (Hin : forall v, (i, EvIncr v) ∈ l -> (i, EvIncr v) ∈ (j, e) :: l)
    by (intros; by right).
  assert (Hout : forall v, (i, EvIncr v) ∉ l -> (i, EvIncr v) ∉ (j, e) :: l).
  { intros v H [[=] | H']%elem_of_cons; [congruence | done]. }
  destruct p; simpl;
    first [ intros [H1 H2]; split; [done | intros v; by apply Hout]
          | intros [H1 H2]; split; [by apply Hin | done]
          | intros (v & H1 & H2); exists v; split; [by apply Hin | done] ].
Qed.

Lemma on_finish_own (rr : ProducerConsumer) (s : state) (l : list (nat * event))
    (j : nat) (p p' : pc) (ev : option event) :
  on_finish rr l j p ->
  trans (Relay rr) s p = Some (p', ev) ->
  (forall pend, p <> Increment pend) ->
  on_finish rr (match ev with Some e => (j, e) :: l | None => l end) j p'.
Proof.
  intros HL Ht Hni. unfold on_finish in *.
  trans_cases p Ht; simpl in *;
    rewrite ?sentinels_put_by_cons, ?Nat.eqb_refl; simpl;
    try (by exfalso; eapply Hni);
    try (destruct HL as [HL1 HL2]; split; [done |];
         intros v [[=] | H']%elem_of_cons; by eapply HL2);
    try done;
    destruct HL as [H1 H2].
  - subst. split; [done | lia].
  - exists v. split; [done |]. by destruct (Z.eqb_spec v (pc_n_workers rr)).
  - exists (pc_n_workers rr). rewrite Z.eqb_refl. split; [done | lia].
  - split; [by right | lia].
Qed.

Lemma apply_event_workers_done (i : nat) (ev : option event) (s : state) :
  workers_done (apply_event i ev s)
  = match ev with Some (EvIncr v) => v | _ => workers_done s end.
Proof. destruct ev as [[] |]; done. Qed.

Lemma accounting_exec (rr : ProducerConsumer) (a : action) (s : state) :
  counter_fits rr -> accounting rr s -> accounting rr (exec (Relay rr) a s).
Proof.
  intros [Hc1 Hcmp] Hacc.
  destruct (exec_cases (Relay rr) a s)
    as [-> | [[_ ->] | (j & p & p' & ev & _ & Hp & Ht & ->)]]; [done | done |].
  destruct Hacc as (HB & Hlen & HC & HD & HD' & HG & HE).
  destruct (apply_event_fields j ev (set_pc j p' s)) as (Hprocs & Hlog & _ & _).
  pose proof (apply_event_workers_done j ev (set_pc j p' s)) as Hwd.
  unfold accounting. rewrite Hprocs, Hlog, Hwd. simpl. clear Hprocs Hlog Hwd.
  pose proof (HE j p Hp) as HEj.
  assert (Hothers : forall i p0 e, i <> j -> procs s !! i = Some p0 ->
            on_finish rr ((j, e) :: log s) i p0).
  { intros i p0 e Hne Hi. apply on_finish_frame; [done |]. by apply HE. }
  destruct (trans_increment_or_not rr s p p' ev Ht)
    as [(pend & -> & -> & ->) | (Hinc & Hnev & Hni)].
  - set (v := increment_workers_done rr (workers_done s)).
    pose proof (count_if_lt incremented (procs s) j _ Hp eq_refl) as Hlt.
    pose proof (count_if_insert incremented (procs s) j _ (Compare v pend) Hp) as Hins.
    simpl in Hins, HEj. destruct HEj as [Hz Hfresh].
    assert (Hv : v = workers_done s + 1).
    { unfold v, increment_workers_done. destruct (pc_multiprocess rr); [| done].
      apply wrap_c_int_small. specialize (Hcmp eq_refl). unfold c_int_max in *. lia. }
    repeat split.
    + lia.
    + by rewrite length_insert.
    + apply elem_of_cons in H as [[= -> ->] | H]; [lia |]. apply HC in H. lia.
    + apply elem_of_cons in H as [[= -> ->] | H]; [lia |]. apply HC in H. lia.
    + intros i i' v0 [[= -> ->] | H]%elem_of_cons [[= ->] | H']%elem_of_cons;
        try done.
      * apply HC in H'. lia.
      * apply HC in H. lia.
      * by eapply HD.
    + intros i v0 v1 [[= -> ->] | H]%elem_of_cons [[=] | H']%elem_of_cons;
        try done.
      * by apply Hfresh in H'.
      * subst. by apply Hfresh in H.
      * by eapply HD'.
    + intros v0 Hv0. destruct (decide (v0 = v)) as [-> | Hne].
      * exists j. by left.
      * destruct (HG v0) as [i Hi]; [lia |]. exists i. by right.
    + intros i p0. destruct (decide (i = j)) as [-> | Hne].
      * rewrite list_lookup_insert_eq by (by eapply lookup_lt_Some).
        intros [= <-]. simpl. split; [by left |].
        rewrite sentinels_put_by_cons, Hz, Nat.eqb_refl. done.
      * rewrite list_lookup_insert_ne by done. by apply Hothers.
  - assert (Hmem : forall i v,
              (i, EvIncr v) ∈ match ev with
                             | Some e => (j, e) :: log s
                             | None => log s
                             end <-> (i, EvIncr v) ∈ log s).
    { intros i v. destruct ev as [e |]; [| done]. rewrite elem_of_cons.
      split; [| by right]. intros [[= -> <-] | H]; [| done]. by destruct (Hnev v). }
    assert (Hwd : match ev with Some (EvIncr v) => v | _ => workers_done s end
                  = workers_done s).
    { destruct ev as [[] |]; try done. by destruct (Hnev v). }
    rewrite Hwd.
    pose proof (count_if_insert incremented (procs s) j _ p' Hp) as Hins.
    rewrite Hinc in Hins.
    repeat split.
    + lia.
    + by rewrite length_insert.
    + apply Hmem in H. apply HC in H. lia.
    + apply Hmem in H. apply HC in H. lia.
    + intros i i' v Hi Hi'. apply Hmem in Hi, Hi'. by eapply HD.
    + intros i v v' Hi Hi'. apply Hmem in Hi, Hi'. by eapply HD'.
    + intros v Hv. destruct (HG v Hv) as [i Hi]. exists i. by apply Hmem.
    + intros i p0. destruct (decide (i = j)) as [-> | Hne].
      * rewrite list_lookup_insert_eq by (by eapply lookup_lt_Some).
        intros [= <-]. by eapply on_finish_own.
      * rewrite list_lookup_insert_ne by done. intros Hi.
        destruct ev as [e |]; [by apply Hothers | by apply HE].
Qed.

Lemma accounting_start (rr : ProducerConsumer) (seqs : nat -> list input) :
  accounting rr (ProducerConsumer_start rr seqs).
Proof.
  assert (Hnone : forall (l : list nat),
            count_if incremented ((fun i => Next (seqs i) : pc) <$> l) = O).
  { induction l as [| i l IH]; [done |].
    rewrite fmap_cons. cbn [count_if]. by rewrite IH. }
  split; [| split; [| split; [| split; [| split; [| split]]]]].
  - unfold ProducerConsumer_start. cbn [workers_done procs]. by rewrite Hnone.
  - unfold ProducerConsumer_start. cbn [procs]. by rewrite length_fmap, length_seq.
  - intros i v H. by apply elem_of_nil in H.
  - intros i j v H. by apply elem_of_nil in H.
  - intros i v v' H. by apply elem_of_nil in H.
  - intros v Hv. simpl in Hv. lia.
  - intros i p Hp. apply relay_start_lookup in Hp as ->. simpl.
    split; [done |]. intros v H. by apply elem_of_nil in H.
Qed.

Lemma accounting_run (rr : ProducerConsumer) (seqs : nat -> list input)
    (sched : list action) :
  counter_fits rr ->
  accounting rr (run (Relay rr) sched (ProducerConsumer_start rr seqs)).
Proof.
  intros Hfits. apply run_invariant; [| apply accounting_start].
  intros a s. by apply accounting_exec.
Qed.

(** What the accounting says of one worker's sentinels: none, or the
    worker's increment returned the number of workers. *)
Lemma sentinels_of_worker (rr : ProducerConsumer) (s : state) (j : nat) :
  accounting rr s -> wf_state s ->
  sentinels_put_by j (log s) = O
  \/ ((j, EvIncr (pc_n_workers rr)) ∈ log s
      /\ (sentinels_put_by j (log s) <= Z.to_nat (pc_n_consumers rr))%nat).
Proof.
  intros (_ & _ & _ & _ & _ & _ & HE) [_ Hids].
  destruct (procs s !! j) as [p |] eqn:Hp.
  - specialize (HE j p Hp). unfold on_finish in HE.
    destruct p; simpl in HE; try (left; by destruct HE).
    + right. destruct HE as [H1 H2]. split; [done | lia].
    + destruct HE as (v & H1 & H2).
      destruct (Z.eqb_spec v (pc_n_workers rr)) as [-> | Hne]; [| by left].
      right. split; [done | lia].
  - left. unfold sentinels_put_by. rewrite events_of_absent; [done |].
    intros ev Hev. apply Hids in Hev. apply lookup_ge_None in Hp. lia.
Qed.

(** C1: in a relay stage with [c] workers whose next stage has [m], in
    every state of every run, whatever the workers' calls did: a worker
    that put a sentinel is one whose increment of the completion counter
    returned [c]; at most one worker's increment returned [c]; the queue
    holds at most [m] sentinels; when a sentinel has been put, every one of
    the [c] workers is past its increment and every worker but the one
    that put it has nothing left to do but return; once all workers have
    left the queue holds exactly [m] sentinels; and the workers can always
    all leave. *)
Theorem relay_sentinel_accounting (task : Task) (next_task : option Task)
    (seqs : nat -> list input) (sched : list action) :
  valid_task task ->
  (forall nt, next_task = Some nt -> valid_task nt) ->
  (multiprocess task = true -> concurrency task <= c_int_max) ->
  let rr := ProducerConsumer_init task next_task in
  let c := concurrency task in
  let m := consumers_of next_task in
  let s := run (Relay rr) sched (ProducerConsumer_start rr seqs) in
  (forall i, (i, EvPut StopSentinel) ∈ log s -> (i, EvIncr c) ∈ log s)
  /\ (forall i j, (i, EvIncr c) ∈ log s -> (j, EvIncr c) ∈ log s -> i = j)
  /\ Z.of_nat (sentinels_in (q_out s)) <= m
  /\ (forall i, (i, EvPut StopSentinel) ∈ log s ->
       forall j, (j < Z.to_nat c)%nat ->
         exists p, procs s !! j = Some p /\ incremented p = true
           /\ (j <> i -> forall p' ev, trans (Relay rr) s p = Some (p', ev) ->
                 ev = None /\ exited p' = true))
  /\ (all_exited s -> Z.of_nat (sentinels_in (q_out s)) = m)
  /\ exists sched', all_exited (run (Relay rr) sched' s).
Proof.
  intros (Hc & _) Hnext Hmp rr c m s.
  assert (Hfits : counter_fits rr) by (split; done).
  assert (Hm : 1 <= m).
  { unfold m, consumers_of. destruct next_task as [nt |]; [| lia].
    by destruct (Hnext nt eq_refl). }
  pose proof (accounting_run rr seqs sched Hfits) as Hacc. fold s in Hacc.
  pose proof (wf_state_run (Relay rr) sched _ (relay_start_wf rr seqs)) as Hwf.
  fold s in Hwf.
  pose proof Hacc as (HB & Hlen & HC & HD & HD' & HG & HE).
  pose proof Hwf as [Hq Hids].
  change (pc_n_workers rr) with c in *.
  assert (Hworker := fun j => sentinels_of_worker rr s j Hacc Hwf).
  change (pc_n_workers rr) with c in Hworker.
  change (pc_n_consumers rr) with m in Hworker.
  assert (Hwriter : forall i, (i, EvPut StopSentinel) ∈ log s -> (i, EvIncr c) ∈ log s).
  { intros i Hi. apply sentinels_put_by_pos in Hi.
    destruct (Hworker i) as [Hz | [H _]]; [lia | done]. }
  assert (Hcount : sentinels_in (q_out s) = sentinels_put (log s)).
  { rewrite Hq. apply sentinels_in_queue. }
  assert (Hle : (count_if incremented (procs s) <= length (procs s))%nat)
    by apply count_if_le.
  assert (Hwinner : forall i0, (i0, EvIncr c) ∈ log s ->
            sentinels_put (log s) = sentinels_put_by i0 (log s)).
  { intros i0 Hi0. apply sentinels_put_single. intros j Hne.
    destruct (Hworker j) as [Hz | [H _]]; [done |].
    destruct Hne. by eapply HD. }
  split; [exact Hwriter |]. split; [intros i j; apply HD |]. split; [| split; [| split]].
  - rewrite Hcount. destruct (decide (c <= workers_done s)) as [Hge | Hlt].
    + destruct (HG c) as [i0 Hi0]; [lia |]. rewrite (Hwinner i0 Hi0).
      destruct (Hworker i0) as [Hz | [_ H]]; lia.
    + rewrite sentinels_put_none; [lia |]. intros j.
      destruct (Hworker j) as [Hz | [H _]]; [done |]. apply HC in H. lia.
  - intros i Hi j Hj. apply Hwriter in Hi. pose proof (HC _ _ Hi) as Hdone.
    assert (Hfull : count_if incremented (procs s) = length (procs s)) by lia.
    destruct (lookup_lt_is_Some_2 (procs s) j) as [p Hp]; [lia |].
    exists p. split; [done |].
    assert (Hinc : incremented p = true) by (by eapply count_if_full).
    split; [done |]. intros Hne p' ev Ht. specialize (HE _ _ Hp).
    destruct p; try done; simpl in HE, Ht.
    + destruct HE as [Hv _]. fold c in Ht.
      destruct (Z.eqb_spec v c) as [-> | _].
      * destruct Hne. by eapply HD.
      * by injection Ht as <- <-.
    + destruct HE as [Hv _]. destruct Hne. by eapply HD.
  - intros Hall. rewrite Hcount.
    assert (Hfull : count_if incremented (procs s) = length (procs s)).
    { apply count_if_full. intros i p Hp. specialize (Hall i p Hp). by destruct p. }
    destruct (HG c) as [i0 Hi0]; [lia |]. rewrite (Hwinner i0 Hi0).
    destruct (lookup_lt_is_Some_2 (procs s) i0) as [p Hp]; [by eapply Hids |].
    specialize (Hall _ _ Hp). specialize (HE _ _ Hp).
    destruct p; try done. simpl in HE. destruct HE as (v & Hv & ->).
    rewrite (HD' _ _ _ Hv Hi0). change (pc_n_workers rr) with c.
    rewrite Z.eqb_refl. change (pc_n_consumers rr) with m. lia.
  - apply completes. intros i p _. done.
Qed.

(** *** The flag and the error sink *)

Lemma recorded_step (r : runner) (s : state) (p p' : pc)
    (ev : option event) (evs : list event) :
  recorded (shutdown s) p evs -> trans r s p = Some (p', ev) ->
  recorded (shutdown_after (shutdown s) ev) p' (ev_cons ev evs).
Proof.
  intros (H1 & H2 & H3 & H4) Ht. unfold recorded.
  trans_cases p Ht; simpl in *;
    repeat match goal with
           | H : _ /\ _ |- _ => destruct H
           end;
    (split; [intros e' He';
             repeat match goal with
                    | H : _ ∈ _ :: _ |- _ =>
                        apply elem_of_cons in H as [H | H];
                        [try discriminate H; try (injection H as ->) |]
                    end;
             try (destruct (H1 _ He') as (? & ? & ?));
             repeat split; try done; try (by right); try (by left) |]);
    (split; [intros He';
             repeat match goal with
                    | H : _ ∈ _ :: _ |- _ =>
                        apply elem_of_cons in H as [H | H];
                        [try discriminate H |]
                    end;
             try (destruct (H2 He') as (? & e'' & ? & ?));
             try (split; [done |]); try (exists e''; split; [by right | done]);
             try (eexists; split; [by right | done]);
             try (eexists; split; [eassumption | done]) |]);
    (split; [try lia |]);
    try done; try (destruct r; done).
  all: repeat split; try done; first [by left | by right].
Qed.

Lemma recorded_mono (b : bool) (q : list PyExc) (b' : bool) (q' : list PyExc)
    (p : pc) (evs : list event) :
  recorded b p evs -> (b = true -> b' = true) -> (forall e, e ∈ q -> e ∈ q') ->
  recorded b' p evs.
Proof.
  intros (H1 & H2 & H3 & H4) Hb _. repeat split; try done.
  - by apply H1.
  - by apply H1.
  - apply Hb. by eapply H1.
  - apply Hb. by apply H2.
  - by apply H2.
  - destruct p; try done. destruct H4 as (? & ? & ? & ?). auto.
Qed.

Lemma fresh_source (a : input) : fresh (Producer_start a).
Proof.
  repeat split. intros [| i] p; simpl; [| done]. by intros [= <-].
Qed.

Lemma fresh_relay (rr : ProducerConsumer) (seqs : nat -> list input) :
  fresh (ProducerConsumer_start rr seqs).
Proof.
  repeat split. intros i p Hp. by apply relay_start_lookup in Hp as ->.
Qed.

Lemma fresh_wf (s0 : state) : fresh s0 -> wf_state s0.
Proof.
  intros (_ & _ & Hq & Hl & _). split; rewrite Hl; [by rewrite Hq |].
  intros j ev H. by apply elem_of_nil in H.
Qed.

Lemma recorded_run (r : runner) (s0 : state) (sched : list action)
    (i : nat) (p : pc) :
  fresh s0 -> procs (run r sched s0) !! i = Some p ->
  recorded (shutdown (run r sched s0)) p (events_of i (log (run r sched s0))).
Proof.
  intros (_ & _ & _ & Hl & Hpcs) Hp.
  destruct (start_lookup r sched s0 i _ Hp) as [p0 Hp0].
  destruct (local_invariant r i (fun b _ => recorded b))
    with (sched := sched) (s0 := s0) (p0 := p0) as (q & Hq & HL).
  - apply recorded_mono.
  - intros. by eapply recorded_step.
  - done.
  - rewrite Hl. simpl. unfold recorded.
    repeat split; try (intros; exfalso; eapply elem_of_nil; eauto; fail); try done.
    + simpl. lia.
    + specialize (Hpcs _ _ Hp0). by destruct p0.
  - congruence.
Qed.

Lemma sink_wf_run (r : runner) (s0 : state) (sched : list action) :
  fresh s0 -> sink_wf (run r sched s0).
Proof.
  intros (_ & Hq & _ & Hl & _). apply run_invariant.
  - intros a s Hs.
    destruct (exec_cases r a s)
      as [-> | [[_ ->] | (j & p & p' & ev & _ & Hp & Ht & ->)]]; [done | done |].
    unfold sink_wf in *. destruct ev as [[] |]; simpl; try done.
    by rewrite Hs.
  - unfold sink_wf. by rewrite Hq, Hl.
Qed.

Lemma elem_of_errs_rev (e : PyExc) (l : list (nat * event)) :
  e ∈ errs_rev l <-> exists i, (i, EvErr e) ∈ l.
Proof.
  induction l as [| [j ev] l IH]; simpl.
  - split; [intros H; by apply elem_of_nil in H |].
    intros [i H]. by apply elem_of_nil in H.
  - assert (Hskip : (exists i, (i, EvErr e) ∈ l) ->
                    exists i, (i, EvErr e) ∈ (j, ev) :: l).
    { intros [i H]. exists i. by right. }
    destruct ev; try rewrite elem_of_cons; rewrite IH;
      (split; [intros; try tauto |
               intros [i [[=] | H]%elem_of_cons]; subst; eauto]).
    destruct H as [-> | H]; [exists j; by left | tauto].
Qed.

Lemma shutdown_monotone (r : runner) (sched : list action) (s : state) :
  shutdown s = true -> shutdown (run r sched s) = true.
Proof.
  revert s. induction sched as [| a sched IH]; intros s Hs; [done |].
  rewrite run_cons. apply IH.
  destruct (exec_cases r a s)
    as [-> | [[_ ->] | (j & p & p' & ev & _ & Hp & Ht & ->)]]; [done | done |].
  destruct (apply_event_fields j ev (set_pc j p' s)) as (_ & _ & -> & _).
  simpl. by destruct ev as [[] |].
Qed.

Lemma set_by_worker_run (r : runner) (s0 : state) (sched : list action) :
  fresh s0 -> forallb is_run sched = true -> set_by_worker (run r sched s0).
Proof.
  intros (Hs0 & _) Hruns.
  assert (H0 : set_by_worker s0) by (intros H; congruence).
  clear Hs0. revert s0 H0.
  induction sched as [| a sched IH]; intros s H0; [done |].
  simpl in Hruns. apply andb_prop in Hruns as [Ha Hruns].
  rewrite run_cons. apply IH; [done |].
  destruct (exec_cases r a s)
    as [-> | [[-> _] | (j & p & p' & ev & _ & Hp & Ht & ->)]]; [done | done |].
  destruct (apply_event_fields j ev (set_pc j p' s)) as (_ & Hlog & Hsh & _).
  unfold set_by_worker. rewrite Hlog, Hsh. simpl.
  destruct ev as [[] |]; simpl; try (intros H; destruct (H0 H) as [i Hi];
                                     exists i; by right); try done.
  intros _. exists j. by left.
Qed.

(** X5: in every run of a stage, source or relay: once the Shutdown Flag
    is set it stays set; whenever the error sink is not empty the flag is
    set; and, when no other stage sets it, the flag is set only if a call
    of one of the stage's workers raised an [Exception]. *)
Theorem shutdown_flag_and_sink (r : runner) (s0 : state)
    (sched : list action) :
  fresh s0 ->
  let s := run r sched s0 in
  (forall sched', shutdown s = true -> shutdown (run r sched' s) = true)
  /\ (q_err s <> [] -> shutdown s = true)
  /\ (forallb is_run sched = true -> shutdown s = true ->
      exists i e, (i, EvRaise e) ∈ log s /\ isinstance_Exception e = true).
Proof.
  intros Hfresh s.
  assert (Hworker : forall i ev, (i, ev) ∈ log s ->
            exists p, procs s !! i = Some p
              /\ recorded (shutdown s) p (events_of i (log s))).
  { intros i ev Hin.
    destruct (wf_state_run r sched s0 (fresh_wf _ Hfresh)) as [_ Hids].
    destruct (lookup_lt_is_Some_2 (procs s) i) as [p Hp]; [by eapply Hids |].
    exists p. split; [done |]. by apply recorded_run. }
  split; [intros sched'; apply shutdown_monotone |]. split.
  - intros Hne. pose proof (sink_wf_run r s0 sched Hfresh) as Hq. fold s in Hq.
    destruct (errs_rev (log s)) as [| e l] eqn:E.
    { unfold sink_wf in Hq. by rewrite E in Hq. }
    assert (He : e ∈ errs_rev (log s)) by (rewrite E; left).
    apply elem_of_errs_rev in He as [i Hi].
    destruct (Hworker _ _ Hi) as (p & _ & (H1 & _)).
    apply elem_of_events_of in Hi. by destruct (H1 _ Hi) as (_ & _ & ?).
  - intros Hruns Hs.
    destruct (set_by_worker_run r s0 sched Hfresh Hruns Hs) as [i Hi].
    destruct (Hworker _ _ Hi) as (p & _ & (_ & H2 & _)).
    apply elem_of_events_of in Hi. destruct (H2 Hi) as (_ & e & He & Hexc).
    exists i, e. split; [by apply elem_of_events_of | done].
Qed.

Lemma sum_list_with_const0 {A} (l : list A) :
  sum_list_with (fun _ => O) l = O.
Proof. induction l; simpl; lia. Qed.

Lemma sum_list_with_add {A} (g h : A -> nat) (l : list A) :
  sum_list_with (fun i => (g i + h i)%nat) l
  = (sum_list_with g l + sum_list_with h l)%nat.
Proof. induction l as [| x l IH]; simpl; lia. Qed.

Lemma sum_list_with_same {A} (g h : A -> nat) (l : list A) :
  (forall x, g x = h x) -> sum_list_with g l = sum_list_with h l.
Proof. intros H. induction l as [| x l IH]; simpl; [done |]. by rewrite H, IH. Qed.

Lemma sum_indicator (a j start n : nat) :
  sum_list_with (fun i => if (i =? j)%nat then a else O) (seq start n)
  = if decide (start <= j < start + n)%nat then a else O.
Proof.
  revert start. induction n as [| n IH]; intros start; simpl.
  - case_decide; [lia | done].
  - rewrite IH. destruct (Nat.eqb_spec start j); repeat case_decide; lia.
Qed.

Lemma sum_list_with_le1 {A} (g : A -> nat) (l : list A) :
  (forall x, g x <= 1)%nat -> (sum_list_with g l <= length l)%nat.
Proof.
  intros H. induction l as [| x l IH]; simpl; [lia |]. specialize (H x). lia.
Qed.

Lemma count_by_worker (f : event -> bool) (n : nat) (l : list (nat * event)) :
  (forall j ev, (j, ev) ∈ l -> (j < n)%nat) ->
  count_if (fun e => f e.2) l
  = sum_list_with (fun i => count_if f (events_of i l)) (seq 0 n).
Proof.
  induction l as [| [j e] l IH]; intros Hids.
  - simpl. by rewrite sum_list_with_const0.
  - assert (Hj : (j < n)%nat) by (eapply Hids; left).
    rewrite (sum_list_with_same
               (fun i => count_if f (events_of i ((j, e) :: l)))
               (fun i => ((if (i =? j)%nat then (if f e then 1 else 0) else 0)
                          + count_if f (events_of i l))%nat)).
    + rewrite sum_list_with_add, sum_indicator, <- IH.
      * simpl. case_decide; lia.
      * intros k ev H. eapply Hids. by right.
    + intros i. simpl. by destruct (i =? j)%nat.
Qed.

Lemma length_errs_rev (l : list (nat * event)) :
  length (errs_rev l) = count_if (fun e => is_err e.2) l.
Proof.
  induction l as [| [j e] l IH]; [done |]. destruct e; simpl; lia.
Qed.

(** X6: in every run of a stage, source or relay, every exception that a
    worker of the stage puts on the error sink is an instance of
    [Exception] that a call of that same worker raised, and it is put with
    the flag set; each worker puts at most one, so the stage puts no more
    exceptions than it started workers. *)
Theorem stage_error_reports (r : runner) (s0 : state) (sched : list action) :
  fresh s0 ->
  let s := run r sched s0 in
  (forall i e, (i, EvErr e) ∈ log s ->
     isinstance_Exception e = true /\ (i, EvRaise e) ∈ log s
     /\ shutdown s = true)
  /\ (forall i, (count_if is_err (events_of i (log s)) <= 1)%nat)
  /\ (length (errs_rev (log s)) <= length (procs s0))%nat.
Proof.
  intros Hfresh s.
  destruct (wf_state_run r sched s0 (fresh_wf _ Hfresh)) as [_ Hids].
  fold s in Hids.
  assert (Hone : forall i, (count_if is_err (events_of i (log s)) <= 1)%nat).
  { intros i. destruct (procs s !! i) as [p |] eqn:Hp.
    - by destruct (recorded_run r s0 sched i p Hfresh Hp) as (_ & _ & ? & _).
    - rewrite events_of_absent; [simpl; lia |]. intros ev Hev.
      apply Hids in Hev. apply lookup_ge_None in Hp. lia. }
  split; [| split; [exact Hone |]].
  - intros i e Hi.
    destruct (lookup_lt_is_Some_2 (procs s) i) as [p Hp]; [by eapply Hids |].
    destruct (recorded_run r s0 sched i p Hfresh Hp) as (H1 & _).
    apply elem_of_events_of in Hi. destruct (H1 _ Hi) as (Hr & Hexc & Hset).
    split; [done |]. split; [by apply elem_of_events_of | done].
  - rewrite length_errs_rev.
    rewrite (count_by_worker is_err (length (procs s))) by exact Hids.
    etrans; [apply sum_list_with_le1; exact Hone |].
    rewrite length_seq. unfold s. by rewrite length_procs_run.
Qed.

(** *** The order of the output queue *)

Lemma data_then_sentinels_snoc_sentinel (q : list (@item payload)) :
  data_then_sentinels (q ++ [StopSentinel]) = data_then_sentinels q.
Proof.
  induction q as [| [o |] q IH]; simpl; try done.
  rewrite forallb_app. simpl. by rewrite !andb_true_r.
Qed.

Lemma data_then_sentinels_snoc_data (q : list (@item payload)) (o : payload) :
  sentinels_in q = O -> data_then_sentinels q = true ->
  data_then_sentinels (q ++ [Data o]) = true.
Proof.
  unfold sentinels_in. induction q as [| [o' |] q IH]; simpl; try done.
Qed.

Lemma data_then_sentinels_split (q : list (@item payload)) :
  data_then_sentinels q = true ->
  q = (Data <$> datas q) ++ replicate (sentinels_in q) StopSentinel.
Proof.
  unfold sentinels_in. induction q as [| [o |] q IH]; simpl; intros H; [done | |].
  - f_equal. exact (IH H).
  - assert (Hall : forall q' : list (@item payload),
              forallb is_sentinel q' = true ->
              datas q' = [] /\ q' = replicate (count_if is_sentinel q') StopSentinel).
    { induction q' as [| [o |] q' IHq]; simpl; intros Hq; try done.
      destruct (IHq Hq) as [-> <-]. done. }
    destruct (Hall q H) as [-> <-]. done.
Qed.

Lemma trans_data_put (r : runner) (s : state) (p p' : pc) (o : payload) :
  trans r s p = Some (p', Some (EvPut (Data o))) -> incremented p = false.
Proof.
  destruct p as [? | [| ? ?] | ? ? | [| ? ?] [? |] [? |]
                 | ? | ? | ? | ? ? | [| ?] ? | ?]; simpl; try done;
    repeat match goal with
           | |- context [shutdown ?s] => destruct (shutdown s)
           | |- context [isinstance_Exception ?e] => destruct (isinstance_Exception e)
           | |- context [?v =? ?n] => destruct (v =? n)
           | |- context [match ?r with Source _ => _ | Relay _ => _ end] =>
               destruct r
           end; done.
Qed.

Lemma no_sentinel_before_last (rr : ProducerConsumer) (s : state) :
  counter_fits rr -> accounting rr s -> wf_state s ->
  (count_if incremented (procs s) < length (procs s))%nat ->
  sentinels_in (q_out s) = O.
Proof.
  intros [Hc _] Hacc Hwf Hlt.
  pose proof Hacc as (HB & Hlen & HC & _). pose proof Hwf as [Hq _].
  rewrite Hq, sentinels_in_queue. apply sentinels_put_none. intros j.
  destruct (sentinels_of_worker rr s j Hacc Hwf) as [Hz | [H _]]; [done |].
  apply HC in H. lia.
Qed.

Lemma queue_ordered_exec (rr : ProducerConsumer) (a : action) (s : state) :
  counter_fits rr -> queue_ordered rr s -> queue_ordered rr (exec (Relay rr) a s).
Proof.
  intros Hfits (Hacc & Hwf & Hord).
  split; [by apply accounting_exec |]. split; [by apply wf_state_exec |].
  destruct (exec_cases (Relay rr) a s)
    as [-> | [[_ ->] | (j & p & p' & ev & _ & Hp & Ht & ->)]]; [done | done |].
  destruct ev as [[| | [o |] | | | |] |]; simpl; try done.
  - apply data_then_sentinels_snoc_data; [| done].
    apply (no_sentinel_before_last rr); try done.
    eapply count_if_lt; [exact Hp |]. by eapply trans_data_put.
  - by rewrite data_then_sentinels_snoc_sentinel.
Qed.

Lemma queue_ordered_run (rr : ProducerConsumer) (seqs : nat -> list input)
    (sched : list action) :
  counter_fits rr ->
  queue_ordered rr (run (Relay rr) sched (ProducerConsumer_start rr seqs)).
Proof.
  intros Hfits. apply run_invariant.
  - intros a s. by apply queue_ordered_exec.
  - split; [apply accounting_start |]. split; [apply relay_start_wf | done].
Qed.

(** X7: in every run of a relay stage the puts on the output queue are
    made data first: taken in the order in which the workers make them,
    no put of data follows a put of a sentinel. When the output queue is a
    [queue.Queue], which holds its items in the order of the puts, the
    queue is at every moment all its data followed by all its sentinels. *)
Theorem relay_data_put_before_sentinels (task : Task)
    (next_task : option Task) (seqs : nat -> list input) (sched : list action) :
  valid_task task ->
  (multiprocess task = true -> concurrency task <= c_int_max) ->
  let rr := ProducerConsumer_init task next_task in
  let s := run (Relay rr) sched (ProducerConsumer_start rr seqs) in
  data_then_sentinels (rev (puts_rev (log s))) = true
  /\ (cross_process (pc_q_out rr) = false ->
      data_then_sentinels (q_out s) = true
      /\ q_out s = (Data <$> datas (q_out s))
                   ++ replicate (sentinels_in (q_out s)) StopSentinel).
Proof.
  intros (Hc & _) Hmp rr s.
  assert (Hfits : counter_fits rr) by (split; done).
  destruct (queue_ordered_run rr seqs sched Hfits) as (_ & [Hq _] & Hord).
  fold s in Hq, Hord.
  split; [by rewrite <- Hq |]. intros _.
  split; [exact Hord | by apply data_then_sentinels_split].
Qed.

(** *** What a relay worker writes *)

Lemma outputs_app (l l' : list input) :
  outputs enqueue (l ++ l') = outputs enqueue l ++ outputs enqueue l'.
Proof. apply flat_map_app. Qed.

Lemma emitted_step (rr : ProducerConsumer) (s : state) (p p' : pc)
    (ev : option event) (evs : list event) :
  emitted enqueue (shutdown s) p evs -> trans (Relay rr) s p = Some (p', ev) ->
  emitted enqueue (shutdown_after (shutdown s) ev) p' (ev_cons ev evs).
Proof.
  intros HL Ht. unfold emitted in *.
  trans_cases p Ht; simpl in *; try done;
    repeat match goal with
           | H : _ /\ _ |- _ => destruct H
           | H : exists _, _ |- _ => destruct H
           end; subst; try done;
    try (by rewrite <- app_assoc);
    try (split; [by eauto | done]);
    try (eexists; split; [reflexivity |]; split; [by eauto | done]).
  - match goal with
    | H : rev (dequeued_rev evs) = _ ++ [_], Hk : (?k <= length _)%nat |- _ =>
        rewrite H; split; [exists k | done];
        rewrite length_app, take_app_le by done; split; [lia | done]
    end.
  - match goal with
    | H : rev (dequeued_rev evs) = _ ++ [_], HD : _ = false -> _ |- _ =>
        rewrite H, outputs_app, (HD eq_refl); unfold outputs; simpl;
        by rewrite app_nil_r
    end.
  - rewrite app_nil_r in HL. rewrite HL.
    split; [| done]. eexists. split; [reflexivity |]. by rewrite firstn_all.
  - rewrite app_nil_r in HL. rewrite HL.
    split; [| done]. eexists. split; [reflexivity |]. by rewrite firstn_all.
  - rewrite app_nil_r in HL. rewrite HL.
    split; [| done]. eexists. split; [reflexivity |]. by rewrite firstn_all.
Qed.

Lemma emitted_mono (b : bool) (q : list PyExc) (b' : bool) (q' : list PyExc)
    (p : pc) (evs : list event) :
  emitted enqueue b p evs -> (b = true -> b' = true) ->
  (forall e, e ∈ q -> e ∈ q') -> emitted enqueue b' p evs.
Proof.
  intros HL Hb _. unfold emitted in *.
  assert (Hweak : forall P : Prop, (b = false -> P) -> b' = false -> P).
  { intros P HP Hb'. apply HP. destruct b; [| done]. by rewrite Hb in Hb'. }
  destruct p as [? | ? | ? ? | ? ? [? |] | ? | ? | ? | ? ? | ? ? | ?];
    try done;
    try (destruct HL as [H1 H2]; split; [done | by apply Hweak]).
  destruct HL as (d0 & Hd & H1 & H2). exists d0. repeat split; try done.
  by apply Hweak.
Qed.

Lemma existsb_is_raise (evs : list event) :
  existsb is_raise evs = true -> exists e, EvRaise e ∈ evs.
Proof.
  induction evs as [| ev evs IH]; simpl; [done |].
  destruct ev; simpl; try (intros H; destruct (IH H) as [e' He']; exists e'; by right).
  intros _. eexists. by left.
Qed.

Lemma outputs_at_exit (rr : ProducerConsumer) (seqs : nat -> list input)
    (sched : list action) (i : nat) (pend : option PyExc) :
  let s := run (Relay rr) sched (ProducerConsumer_start rr seqs) in
  procs s !! i = Some (Exited pend) ->
  (exists k, data_put_of i (log s) = outputs enqueue (take k (seqs i)))
  /\ (pend = None -> shutdown s = false ->
      data_put_of i (log s) = outputs enqueue (seqs i)).
Proof.
  intros s Hex.
  destruct (start_lookup (Relay rr) sched _ i _ Hex) as [p0 Hp0].
  destruct (local_invariant (Relay rr) i
              (fun b q p evs => emitted enqueue b p evs
                                /\ consumed enqueue (seqs i) p evs
                                /\ handled b q p evs))
    with (sched := sched) (s0 := ProducerConsumer_start rr seqs) (p0 := p0)
    as (q & Hq & Hem & Hcons & Hhand).
  - intros b q b' q' p evs (H1 & H2 & H3) Hb Hqq. split; [| split; [done |]].
    + by eapply emitted_mono.
    + by eapply handled_mono.
  - intros s' p p' ev evs (H1 & H2 & H3) Ht. split; [| split].
    + by eapply emitted_step.
    + by eapply consumed_step.
    + by eapply handled_step.
  - done.
  - apply relay_start_lookup in Hp0 as ->. simpl. unfold emitted. simpl.
    repeat split; try done.
    + by exists O.
    + intros e He. by apply elem_of_nil in He.
  - fold s in Hq, Hem, Hcons, Hhand. rewrite Hex in Hq. injection Hq as <-.
    unfold emitted in Hem. simpl in Hem, Hcons.
    destruct Hem as [(k & Hk & HD) Hfull].
    destruct Hcons as ((rest & Hrest) & Hall & _).
    unfold data_put_of. split.
    + exists k. rewrite HD, <- Hrest. by rewrite take_app_le.
    + intros -> Hs. rewrite (Hfull Hs). f_equal. apply Hall.
      destruct (existsb is_raise (events_of i (log s))) eqn:E; [| done].
      apply existsb_is_raise in E as [e He]. specialize (Hhand e He).
      rewrite Hs in Hhand. destruct (isinstance_Exception e); simpl in Hhand.
      * by destruct Hhand as (_ & ? & _).
      * done.
Qed.

(** X8: a relay worker that has left wrote, in order, the outputs of the
    calls on a beginning of its dequeue sequence: it skips no input and
    writes nothing out of order or twice. If it returned normally and the
    flag is still unset, it wrote the outputs of its whole sequence. *)
Theorem relay_worker_outputs (rr : ProducerConsumer) (seqs : nat -> list input)
    (sched : list action) (i : nat) (pend : option PyExc) :
  let s := run (Relay rr) sched (ProducerConsumer_start rr seqs) in
  procs s !! i = Some (Exited pend) ->
  (exists k, data_put_of i (log s) = outputs enqueue (take k (seqs i)))
  /\ (pend = None -> shutdown s = false ->
      data_put_of i (log s) = outputs enqueue (seqs i)).
Proof. apply outputs_at_exit. Qed.

(** *** The completion counter, once more *)

(** X10: the completion counter of a relay stage is at every moment the
    number of workers that are past their increment: it is never negative,
    never above the number of workers, the values the increments return
    lie between 1 and it, and it is the number of workers once all have
    left; the C [int] of a multiprocess stage never wraps. *)
Theorem completion_counter_bounds (task : Task) (next_task : option Task)
    (seqs : nat -> list input) (sched : list action) :
  valid_task task ->
  (multiprocess task = true -> concurrency task <= c_int_max) ->
  let rr := ProducerConsumer_init task next_task in
  let s := run (Relay rr) sched (ProducerConsumer_start rr seqs) in
  workers_done s = Z.of_nat (count_if incremented (procs s))
  /\ 0 <= workers_done s <= concurrency task
  /\ (forall i v, (i, EvIncr v) ∈ log s -> 1 <= v <= workers_done s)
  /\ (all_exited s -> workers_done s = concurrency task).
Proof.
  intros (Hc & _) Hmp rr s.
  assert (Hfits : counter_fits rr) by (split; done).
  pose proof (accounting_run rr seqs sched Hfits) as (HB & Hlen & HC & _).
  fold s in HB, Hlen, HC. change (pc_n_workers rr) with (concurrency task) in Hlen.
  pose proof (count_if_le incremented (procs s)) as Hle.
  split; [done |]. split; [lia |]. split; [exact HC |].
  intros Hall.
  assert (Hfull : count_if incremented (procs s) = length (procs s)).
  { apply count_if_full. intros i p Hp. specialize (Hall i p Hp). by destruct p. }
  lia.
Qed.

Lemma all_exited_sentinels (rr : ProducerConsumer) (s : state) :
  counter_fits rr -> accounting rr s -> wf_state s -> all_exited s ->
  sentinels_in (q_out s) = Z.to_nat (pc_n_consumers rr).
Proof.
  intros [Hc _] Hacc Hwf Hall.
  pose proof Hacc as (HB & Hlen & HC & HD & HD' & HG & HE).
  pose proof Hwf as [Hq Hids].
  rewrite Hq, sentinels_in_queue.
  assert (Hfull : count_if incremented (procs s) = length (procs s)).
  { apply count_if_full. intros i p Hp. specialize (Hall i p Hp). by destruct p. }
  destruct (HG (pc_n_workers rr)) as [i0 Hi0]; [lia |].
  rewrite (sentinels_put_single i0).
  - destruct (lookup_lt_is_Some_2 (procs s) i0) as [p Hp]; [by eapply Hids |].
    specialize (Hall _ _ Hp). specialize (HE _ _ Hp).
    destruct p; try done. simpl in HE. destruct HE as (v & Hv & ->).
    by rewrite (HD' _ _ _ Hv Hi0), Z.eqb_refl.
  - intros j Hne.
    destruct (sentinels_of_worker rr s j Hacc Hwf) as [Hz | [H _]]; [done |].
    destruct Hne. by eapply HD.
Qed.

Lemma datas_app (q q' : list (@item payload)) :
  datas (q ++ q') = datas q ++ datas q'.
Proof.
  induction q as [| [o |] q IH]; simpl; [done | by rewrite IH | done].
Qed.

Lemma datas_rev_puts (evs : list event) :
  datas (rev (puts_ev evs)) = rev (data_ev evs).
Proof.
  induction evs as [| ev evs IH]; [done |].
  destruct ev as [| | [o |] | | | |]; simpl; rewrite ?datas_app, ?IH; simpl;
    by rewrite ?app_nil_r.
Qed.

(** X9: a relay stage with a single worker keeps the order of its input:
    when the worker has returned and the flag is unset, the output queue
    holds the outputs of the calls on the inputs, in the order of the
    inputs, followed by the sentinels for the next stage. *)
Theorem single_worker_preserves_order (task : Task) (next_task : option Task)
    (seqs : nat -> list input) (sched : list action) :
  valid_task task -> concurrency task = 1 ->
  let rr := ProducerConsumer_init task next_task in
  let s := run (Relay rr) sched (ProducerConsumer_start rr seqs) in
  procs s !! O = Some (Exited None) -> shutdown s = false ->
  q_out s = (Data <$> outputs enqueue (seqs O))
            ++ replicate (Z.to_nat (consumers_of next_task)) StopSentinel.
Proof.
  intros (Hc & _) Hone rr s Hex Hs.
  assert (Hfits : counter_fits rr).
  { split; [done |]. intros _. change (pc_n_workers rr) with (concurrency task).
    rewrite Hone. unfold c_int_max. lia. }
  destruct (queue_ordered_run rr seqs sched Hfits) as (Hacc & Hwf & Hord).
  fold s in Hacc, Hwf, Hord.
  pose proof Hacc as (_ & Hlen & _). pose proof Hwf as [Hq Hids].
  change (pc_n_workers rr) with (concurrency task) in Hlen. rewrite Hone in Hlen.
  assert (Hall : all_exited s).
  { intros i p Hp. apply lookup_lt_Some in Hp as Hi.
    assert (i = O) as -> by (rewrite Hlen in Hi; simpl in Hi; lia).
    rewrite Hex in Hp. by injection Hp as <-. }
  rewrite (data_then_sentinels_split _ Hord) at 1.
  rewrite (all_exited_sentinels rr s Hfits Hacc Hwf Hall).
  change (pc_n_consumers rr) with (consumers_of next_task).
  f_equal. f_equal.
  rewrite Hq, puts_rev_single, datas_rev_puts.
  - destruct (outputs_at_exit rr seqs sched O None Hex) as [_ H].
    by apply H.
  - intros j ev H. apply Hids in H. rewrite Hlen in H. simpl in H. lia.
Qed.

(** *** The two counters *)

Lemma trans_in_process (rr : ProducerConsumer) (s : state) (i : nat) (p : pc) :
  counter_fits rr -> accounting rr s -> procs s !! i = Some p ->
  trans (Relay rr) s p = trans (Relay (in_process rr)) s p.
Proof.
  intros [Hc Hmp] (HB & Hlen & _) Hp.
  destruct p; try done. simpl.
  unfold increment_workers_done. simpl.
  destruct (pc_multiprocess rr) eqn:E; [| done].
  pose proof (count_if_lt incremented (procs s) i _ Hp eq_refl) as Hlt.
  specialize (Hmp eq_refl).
  rewrite wrap_c_int_small; [done |]. unfold c_int_max in *. lia.
Qed.

Lemma exec_in_process (rr : ProducerConsumer) (a : action) (s : state) :
  counter_fits rr -> accounting rr s ->
  exec (Relay rr) a s = exec (Relay (in_process rr)) a s.
Proof.
  intros Hfits Hacc. destruct a as [i |]; [| done]. simpl. unfold step.
  destruct (procs s !! i) as [p |] eqn:Hp; [| done].
  by rewrite (trans_in_process rr s i p Hfits Hacc Hp).
Qed.

(** X12: [_increment_workers_done] has a branch for a counter shared
    between processes and one for a plain attribute. As long as the stage
    has no more workers than a C [int] holds, the two give the same run:
    under every schedule the stage reaches the same state whichever
    counter it uses. *)
Theorem counters_agree (rr : ProducerConsumer) (seqs : nat -> list input)
    (sched : list action) :
  counter_fits rr ->
  run (Relay rr) sched (ProducerConsumer_start rr seqs)
  = run (Relay (in_process rr)) sched
        (ProducerConsumer_start (in_process rr) seqs).
Proof.
  intros Hfits.
  change (ProducerConsumer_start (in_process rr) seqs)
    with (ProducerConsumer_start rr seqs).
  pose proof (accounting_start rr seqs) as Hacc.
  revert Hacc. generalize (ProducerConsumer_start rr seqs).
  induction sched as [| a sched IH]; intros s Hacc; [done |].
  rewrite !run_cons, <- (exec_in_process rr a s Hfits Hacc).
  apply IH. by apply accounting_exec.
Qed.

(** *** A relay stage after a failure elsewhere *)

Lemma silent_step (rr : ProducerConsumer) (s : state) (p p' : pc)
    (ev : option event) (evs : list event) :
  silent (shutdown s) p evs -> trans (Relay rr) s p = Some (p', ev) ->
  silent (shutdown_after (shutdown s) ev) p' (ev_cons ev evs).
Proof.
  intros (Hb & Hq & Hp) Ht. unfold silent.
  trans_cases p Ht; simpl in *; try done; try congruence;
    repeat match goal with
           | pend : option PyExc |- _ => destruct pend
           end; try done.
Qed.

Lemma silent_events (evs : list event) :
  forallb quiet_event evs = true ->
  data_ev evs = [] /\ existsb is_raise evs = false
  /\ (forall e, EvErr e ∉ evs) /\ (forall e, EvRaise e ∉ evs).
Proof.
  induction evs as [| ev evs IH]; simpl.
  - intros _. repeat split; try done; intros e H; by apply elem_of_nil in H.
  - intros [Hev Hevs]%andb_prop. destruct (IH Hevs) as (H1 & H2 & H3 & H4).
    destruct ev as [| [] | [|] | | | |]; try done; simpl;
      (repeat split; try done; intros e [[=] | H]%elem_of_cons;
       [by eapply H3 | by eapply H4]).
Qed.

Lemma silent_run (rr : ProducerConsumer) (seqs : nat -> list input)
    (sched : list action) (i : nat) :
  let s := run (Relay rr) (ShutdownElsewhere :: sched)
               (ProducerConsumer_start rr seqs) in
  forallb quiet_event (events_of i (log s)) = true
  /\ (forall p, procs s !! i = Some p -> in_call p = false)
  /\ forall pend, procs s !! i = Some (Exited pend) -> pend = None.
Proof.
  intros s. unfold s. rewrite run_cons.
  set (s1 := exec (Relay rr) ShutdownElsewhere (ProducerConsumer_start rr seqs)).
  destruct (procs s1 !! i) as [p0 |] eqn:Hp0.
  - destruct (local_invariant (Relay rr) i (fun b _ => silent b))
      with (sched := sched) (s0 := s1) (p0 := p0) as (q & Hq & _ & H & Hpos);
      try done.
    + intros b q b' q' p evs (Hb & H1 & H2) Hbb _. split; [by apply Hbb | done].
    + intros. by eapply silent_step.
    + change (procs s1) with (procs (ProducerConsumer_start rr seqs)) in Hp0.
      apply relay_start_lookup in Hp0 as ->. done.
    + split; [done |]. split.
      * intros p Hp. rewrite Hp in Hq. injection Hq as <-. by destruct p.
      * intros pend Hex. rewrite Hex in Hq. injection Hq as <-.
        by destruct pend.
  - apply lookup_ge_None in Hp0.
    assert (Hlen : length (procs (run (Relay rr) sched s1)) = length (procs s1))
      by apply length_procs_run.
    split; [| split].
    + rewrite events_of_absent; [done |].
      intros ev Hev.
      assert (Hwf : wf_state (run (Relay rr) sched s1)).
      { apply wf_state_run. split; [done |].
        intros j e H. by apply elem_of_nil in H. }
      destruct Hwf as [_ Hids]. apply Hids in Hev. lia.
    + intros p Hp. apply lookup_lt_Some in Hp. lia.
    + intros pend Hex. apply lookup_lt_Some in Hex. lia.
Qed.

Lemma datas_no_data_put (l : list (nat * event)) :
  (forall i o, (i, EvPut (Data o)) ∉ l) -> datas (rev (puts_rev l)) = [].
Proof.
  induction l as [| [j ev] l IH]; intros H; [done |].
  assert (Hl : forall i o, (i, EvPut (Data o)) ∉ l).
  { intros i o Hin. apply (H i o). by right. }
  destruct ev as [| | [o |] | | | |]; simpl; rewrite ?datas_app, ?IH; try done.
  exfalso. apply (H j o). left.
Qed.

(** X11: a relay stage that starts after the Shutdown Flag was set
    elsewhere calls its task on nothing: under every schedule its workers
    only dequeue, find the flag set, count themselves done and put
    sentinels, so no call begins, nothing is raised, the stage puts
    nothing on the error sink and the output queue holds no data. Its
    workers still dequeue their whole input, and once they have all left
    the queue holds exactly the sentinels for the next stage. *)
Theorem relay_after_shutdown_elsewhere (task : Task) (next_task : option Task)
    (seqs : nat -> list input) (sched : list action) :
  valid_task task ->
  (multiprocess task = true -> concurrency task <= c_int_max) ->
  let rr := ProducerConsumer_init task next_task in
  let s := run (Relay rr) (ShutdownElsewhere :: sched)
               (ProducerConsumer_start rr seqs) in
  (forall i ev, (i, ev) ∈ log s -> quiet_event ev = true)
  /\ (forall i p, procs s !! i = Some p -> in_call p = false)
  /\ datas (q_out s) = []
  /\ (forall i pend, procs s !! i = Some (Exited pend) ->
        pend = None /\ dequeued i (log s) = seqs i)
  /\ (all_exited s ->
      q_out s = replicate (Z.to_nat (consumers_of next_task)) StopSentinel).
Proof.
  intros (Hc & _) Hmp rr s.
  assert (Hfits : counter_fits rr) by (split; done).
  assert (Hquiet : forall i ev, (i, ev) ∈ log s -> quiet_event ev = true).
  { intros i ev Hin. apply elem_of_events_of in Hin.
    destruct (silent_run rr seqs sched i) as (H & _). fold s in H.
    rewrite forallb_forall in H. apply H. by apply list_elem_of_In. }
  destruct (queue_ordered_run rr seqs (ShutdownElsewhere :: sched) Hfits)
    as (Hacc & Hwf & Hord).
  fold s in Hacc, Hwf, Hord. pose proof Hwf as [Hq _].
  assert (Hdatas : datas (q_out s) = []).
  { rewrite Hq. apply datas_no_data_put. intros i o Hin.
    by specialize (Hquiet _ _ Hin). }
  split; [exact Hquiet |]. split; [| split; [exact Hdatas | split]].
  - intros i p Hp. destruct (silent_run rr seqs sched i) as (_ & Hpos & _).
    by apply (Hpos p).
  - intros i pend Hex.
    destruct (silent_run rr seqs sched i) as (Hsil & _ & Hpend).
    fold s in Hsil, Hpend.
    destruct (silent_events _ Hsil) as (_ & Hnr & _ & _).
    pose proof (consumed_at_exit rr seqs (ShutdownElsewhere :: sched) i pend Hex)
      as Hcons.
    fold s in Hcons. simpl in Hcons. destruct Hcons as (_ & Hall & _).
    split; [by apply Hpend | by apply Hall].
  - intros Hall.
    rewrite (data_then_sentinels_split _ Hord), Hdatas. simpl.
    by rewrite (all_exited_sentinels rr s Hfits Hacc Hwf Hall).
Qed.

End Runs.

(** ** The theorems at concrete stages *)

(** C2 at a source that feeds three consumers, its call raising. *)
Lemma source_worker_sentinels_witness :
  p_n_consumers source_of_three = 3
  /\ exists sched pend,
       procs (run double_or_fail (Source source_of_three) sched (Producer_start 2))
         !! O = Some (Exited pend).
Proof.
  destruct (source_worker_sentinels double_or_fail (plain_task 1 0 false)
              (Some (plain_task 3 4 false)) source_of_three 2 [])
    as (Hn & _ & _ & Hex).
  - reflexivity.
  - intros nt [= <-]. unfold valid_task; simpl. repeat split; lia.
  - split; [exact Hn | exact Hex].
Defined.

Example source_run_after_fault :
  let s := run double_or_fail (Source source_of_three) (replicate 9 (Run O))
               (Producer_start 2) in
  procs s = [Exited None]
  /\ q_out s = [StopSentinel; StopSentinel; StopSentinel]
  /\ shutdown s = true
  /\ q_err s = [ValueError "bad item"].
Proof. vm_compute. repeat split. Qed.

(** C1 at a multiprocessed relay stage of two workers that feeds three. *)
Lemma relay_sentinel_accounting_witness :
  let s := run double_or_fail
               (Relay (ProducerConsumer_init (plain_task 2 0 true)
                                             (Some (plain_task 3 0 false))))
               taking_turns
               (ProducerConsumer_start
                  (ProducerConsumer_init (plain_task 2 0 true)
                                         (Some (plain_task 3 0 false)))
                  (fun i => if Nat.eqb i 0 then [1; 2; 3] else [4; 5])) in
  Z.of_nat (sentinels_in (q_out s)) <= 3
  /\ (all_exited s -> Z.of_nat (sentinels_in (q_out s)) = 3).
Proof.
  destruct (relay_sentinel_accounting double_or_fail (plain_task 2 0 true)
              (Some (plain_task 3 0 false))
              (fun i => if Nat.eqb i 0 then [1; 2; 3] else [4; 5]) taking_turns)
    as (_ & _ & Hle & _ & Hall & _).
  - unfold valid_task; simpl. repeat split; lia.
  - intros nt [= <-]. unfold valid_task; simpl. repeat split; lia.
  - intros _. unfold c_int_max. simpl. lia.
  - split; [exact Hle | exact Hall].
Defined.

Example relay_run_two_workers :
  let s := run double_or_fail
               (Relay (ProducerConsumer_init (plain_task 2 0 true)
                                             (Some (plain_task 3 0 false))))
               taking_turns
               (ProducerConsumer_start
                  (ProducerConsumer_init (plain_task 2 0 true)
                                         (Some (plain_task 3 0 false)))
                  (fun i => if Nat.eqb i 0 then [1; 2; 3] else [4; 5])) in
  procs s = [Exited None; Exited None]
  /\ q_out s = [Data 2; Data 8; Data 10; StopSentinel; StopSentinel; StopSentinel]
  /\ workers_done s = 2
  /\ q_err s = [ValueError "bad item"].
Proof. vm_compute. repeat split. Qed.

(** C4, as stated, fails at the source: its worker never observes the
    flag. With the flag set before the worker makes its call, and with the
    flag set while the worker is in its call, the worker puts both items
    of the call. *)
Lemma source_ignores_shutdown :
  (let s := run fan_out (Source lone_source)
                [ShutdownElsewhere; Run O; Run O; Run O] (Producer_start 10) in
   shutdown s = true
   /\ q_out s = [Data 10; Data 11]
   /\ events_of 0 (log s) = [EvPut (Data 11); EvPut (Data 10)])
  /\ (let s := run fan_out (Source lone_source)
                   [Run O; ShutdownElsewhere; Run O; Run O] (Producer_start 10) in
      shutdown s = true /\ q_out s = [Data 10; Data 11])
  /\ ~ flag_guards_enqueue fan_out (Source lone_source) (Producer_start 10).
Proof.
  split; [vm_compute; repeat split |]. split; [vm_compute; repeat split |].
  intros (_ & _ & H).
  destruct (H [ShutdownElsewhere] [Run O; Run O; Run O] O (Call 10)
              eq_refl eq_refl eq_refl) as [Hput _].
  vm_compute in Hput. discriminate Hput.
Qed.

(** C5, as stated, fails: a [KeyboardInterrupt] raised by the call is not
    an [Exception]; the worker puts its sentinel and the exception leaves
    the worker, the flag unset and the error sink empty. *)
Lemma interrupt_not_contained :
  (let s := run interrupted (Source lone_source) (replicate 5 (Run O))
                (Producer_start 10) in
   procs s = [Exited (Some (BaseOnly "KeyboardInterrupt"))]
   /\ shutdown s = false /\ q_err s = [] /\ q_out s = [StopSentinel])
  /\ ~ faults_contained interrupted any_exception (Source lone_source)
                        (Producer_start 10).
Proof.
  split; [vm_compute; repeat split |].
  intros H.
  destruct (H (replicate 5 (Run O)) O (BaseOnly "KeyboardInterrupt")
              (Some (BaseOnly "KeyboardInterrupt"))) as (Hp & _).
  - vm_compute. right. left.
  - reflexivity.
  - reflexivity.
  - vm_compute in Hp. discriminate Hp.
Qed.

(** C5, amended, at a call that raises a [ValueError]. *)
Lemma worker_faults_contained_witness :
  fault_contained
    (run double_or_fail (Source lone_source) (replicate 7 (Run O)) (Producer_start 2))
    0 (ValueError "bad item").
Proof.
  apply (proj1 (proj1 (worker_faults_contained double_or_fail) lone_source 2)
           (replicate 7 (Run O)) O (ValueError "bad item") None).
  - vm_compute. do 3 right. left.
  - reflexivity.
  - reflexivity.
Defined.

(** C10, as stated, fails: the lone worker of a relay stage whose call
    raises on the second of three inputs leaves having dequeued two. *)
Lemma raising_worker_leaves_input :
  (let s := run double_or_fail (Relay lone_relay) (replicate 14 (Run O))
                (ProducerConsumer_start lone_relay (fun _ => [1; 2; 3])) in
   procs s = [Exited None] /\ dequeued 0 (log s) = [1; 2])
  /\ ~ drains_unless double_or_fail no_excuse lone_relay (fun _ => [1; 2; 3]).
Proof.
  split; [vm_compute; repeat split |].
  intros H.
  destruct (H (replicate 14 (Run O)) O None) as [_ Hd]; [reflexivity |].
  specialize (Hd eq_refl). vm_compute in Hd. discriminate Hd.
Qed.

(** C4, amended, at a relay worker overtaken by the flag in the middle of
    a call: the call it had begun puts its two items, the next input is
    dropped. *)
Lemma relay_flag_guards_enqueue_witness :
  guarded (events_of 0
             (log (run fan_out (Relay lone_relay) shutdown_midway
                       (ProducerConsumer_start lone_relay (fun _ => [1; 5])))))
  = true.
Proof.
  exact (proj1 (proj1 (relay_flag_guards_enqueue fan_out) lone_relay
                      (fun _ => [1; 5])) shutdown_midway O).
Defined.

Example relay_run_shutdown_midway :
  let s := run fan_out (Relay lone_relay) shutdown_midway
               (ProducerConsumer_start lone_relay (fun _ => [1; 5])) in
  procs s = [Exited None]
  /\ q_out s = [Data 1; Data 2; StopSentinel]
  /\ dequeued 0 (log s) = [1; 5]
  /\ q_err s = [].
Proof. vm_compute. repeat split. Qed.

(** C10, amended, at the same run: the flag is set while the worker is
    at its first input, no call raises, and the worker dequeues both
    inputs. *)
Lemma relay_worker_drains_unless_raised_witness :
  dequeued 0 (log (run fan_out (Relay lone_relay) shutdown_midway
                       (ProducerConsumer_start lone_relay (fun _ => [1; 5]))))
  = [1; 5].
Proof.
  destruct (proj1 (relay_worker_drains_unless_raised fan_out lone_relay
                     (fun _ => [1; 5])) shutdown_midway O None) as [_ H].
  - reflexivity.
  - exact (H eq_refl).
Defined.

(** ** More on the constructors and on the adapter *)

(** X1: a descriptor that [Task.__init__] returns has at least one worker,
    a throttle that is not negative, [branch] equal to its generator flag
    and never both the async flag and [daemon]; its [func] is callable and
    its two flags are those of the callable it was given, bound or not. *)
Theorem Task_init_invariants f b j c th d bind mp t :
  Task_init f b j c th d bind mp = Ok t ->
  valid_task t
  /\ callable (func t) = true
  /\ is_gen t = derived_is_gen f /\ is_async t = derived_is_async f
  /\ (is_gen t && is_async t = true -> branch t = true /\ daemon t = false).
Proof.
  intros H. pose proof (Task_init_valid _ _ _ _ _ _ _ _ _ H) as Hv.
  split; [exact Hv |]. destruct Hv as (_ & _ & Hb & Hd).
  unfold Task_init in H.
  destruct c as [c | |]; try discriminate. destruct (c <? 1); [discriminate |].
  destruct th as [th | |]; try discriminate. destruct (th <? 0); [discriminate |].
  destruct (callable f) eqn:Hf; [| discriminate]. simpl in H.
  repeat match type of H with
         | (if ?x then _ else _) = _ => destruct x; [discriminate |]
         end.
  injection H as <-. simpl in *. repeat split.
  - by destruct bind.
  - destruct (derived_is_gen f); [congruence | done].
  - destruct (derived_is_gen f), (derived_is_async f), d; simpl in *; congruence.
Qed.

Lemma Task_init_invariants_witness :
  valid_task generator_task /\ callable (func generator_task) = true.
Proof.
  destruct (Task_init_invariants (Function "fan_out" Generator) true false
              (IntArg 2) (IntArg 5) false None false generator_task eq_refl)
    as (Hv & Hc & _).
  split; [exact Hv | exact Hc].
Defined.

(** X2: [Task.__init__] raises nothing but a [TypeError] or a [ValueError]:
    a [TypeError] for an argument of the wrong kind (a [concurrency] or
    [throttle] that is not an integer, a [func] that is not callable, a
    [branch] that does not match the generator flag), a [ValueError] for a
    value out of range (an integer [concurrency] below 1, an integer
    [throttle] below 0, [daemon] with an async callable). *)
Theorem Task_init_error_class f b j c th d bind mp e :
  Task_init f b j c th d bind mp = Raise e ->
  (is_TypeError e = true
   /\ (isinstance_int c = false \/ isinstance_int th = false
       \/ callable f = false \/ b <> derived_is_gen f))
  \/ (is_ValueError e = true
      /\ ((exists z, c = IntArg z /\ z < 1) \/ (exists z, th = IntArg z /\ z < 0)
          \/ (derived_is_async f = true /\ d = true))).
Proof.
  unfold Task_init.
  destruct c as [c | |]; try (intros [= <-]; left; split; auto; fail).
  destruct (Z.ltb_spec c 1).
  { intros [= <-]. right. split; [done |]. left. by exists c. }
  destruct th as [th | |]; try (intros [= <-]; left; split; auto; fail).
  destruct (Z.ltb_spec th 0).
  { intros [= <-]. right. split; [done |]. right; left. by exists th. }
  destruct (callable f) eqn:Hf; simpl.
  2: { intros [= <-]. left. split; auto. }
  destruct b, (derived_is_gen f) eqn:Hg; simpl;
    try (intros [= <-]; left; split; [done |]; do 3 right; congruence);
    destruct (derived_is_async f), d; simpl; try discriminate;
    intros [= <-]; right; (split; [done |]); right; right; done.
Qed.

Lemma Task_init_error_class_witness :
  is_ValueError (ValueError "daemon cannot be True for an async task") = true
  /\ Task_init (Function "fetch" Coroutine) false false (IntArg 1) (IntArg 0)
               true None false
     = Raise (ValueError "daemon cannot be True for an async task").
Proof.
  split; [| reflexivity].
  destruct (Task_init_error_class (Function "fetch" Coroutine) false false
              (IntArg 1) (IntArg 0) true None false _ eq_refl)
    as [[H _] | [H _]]; [discriminate H | exact H].
Defined.

(** X3: when [Producer.__init__] rejects a first task, the error is the
    [RuntimeError] it means to raise only if the task's [func] has a
    [__qualname__]; otherwise reading [task.func.__qualname__] for the
    message raises an [AttributeError] instead. A task built with [bind]
    holds a [functools.partial] object, which has none: such a task is
    always rejected with the [AttributeError]. *)
Theorem Producer_init_error_class (task : Task) (next_task : option Task)
    (e : PyExc) :
  Producer_init task next_task = Raise e ->
  (concurrency task > 1 \/ join task = true)
  /\ match qualname_of (func task) with
     | Some q => is_RuntimeError e = true
     | None => e = AttributeError "__qualname__"
     end
  /\ (forall f b j c th d args mp,
        Task_init f b j c th d (Some args) mp = Ok task ->
        e = AttributeError "__qualname__").
Proof.
  intros H.
  assert (Hcls : match qualname_of (func task) with
                 | Some q => is_RuntimeError e = true
                 | None => e = AttributeError "__qualname__"
                 end).
  { unfold Producer_init, first_task_error in H.
    destruct (concurrency task >? 1);
      [| destruct (join task); [| discriminate]];
      destruct (qualname_of (func task)); by injection H as <-. }
  split; [| split; [exact Hcls |]].
  - unfold Producer_init in H.
    destruct (Z.gtb_spec (concurrency task) 1); [left; lia |].
    destruct (join task); [by right | discriminate].
  - intros f b j c th d args mp Ht.
    assert (Hf : func task = Partial f).
    { unfold Task_init in Ht.
      destruct c as [c | |]; try discriminate. destruct (c <? 1); [discriminate |].
      destruct th as [th | |]; try discriminate. destruct (th <? 0); [discriminate |].
      repeat match type of Ht with
             | (if ?x then _ else _) = _ => destruct x; [discriminate |]
             end.
      by injection Ht as <-. }
    rewrite Hf in Hcls. exact Hcls.
Qed.

Lemma Producer_init_error_class_witness :
  Producer_init bound_task None
  = Raise (first_task_error bound_task "have concurrency greater than 1")
  /\ first_task_error bound_task "have concurrency greater than 1"
     = AttributeError "__qualname__".
Proof.
  split; [reflexivity |].
  exact (proj2 (proj2 (Producer_init_error_class bound_task None _ eq_refl))
           (Function "work" Plain) false false (IntArg 2) (IntArg 0) false
           [7] false eq_refl).
Defined.

(** X4: on a [Task] that is not a [PipelineTask] the adapter never raises,
    what it returns is async, and applying the adapter to that, with any
    executors, returns it unchanged: the adapter is idempotent on every
    such task, async or not. *)
Theorem asynchronize_idempotent
    (PipelineTask_new : pyfunc -> bool -> bool -> Z -> Z -> result PipelineTask)
    (t : Task) (tp pp : executor) :
  exists t',
    asynchronize PipelineTask_new (OfTask t) tp pp = Ok (OfTask t')
    /\ is_async t' = true
    /\ forall tp' pp',
         asynchronize PipelineTask_new (OfTask t') tp' pp' = Ok (OfTask t').
Proof.
  unfold asynchronize. simpl. destruct (is_async t) eqn:Ha.
  - exists t. repeat split; [done |]. intros. by rewrite Ha.
  - rewrite Task_of_wrapper_ok. eexists. repeat split.
Qed.

(** ** The further theorems at concrete stages *)

Lemma shutdown_flag_and_sink_witness :
  let s := run double_or_fail (Relay lone_relay) (replicate 20 (Run O))
               (ProducerConsumer_start lone_relay (fun _ => [1; 2; 3])) in
  shutdown s = true
  /\ exists i e, (i, EvRaise e) ∈ log s /\ isinstance_Exception e = true.
Proof.
  destruct (shutdown_flag_and_sink double_or_fail (Relay lone_relay)
              (ProducerConsumer_start lone_relay (fun _ => [1; 2; 3]))
              (replicate 20 (Run O))) as (_ & Hsink & Hset).
  - repeat split; try reflexivity.
    intros [| i] p H; simpl in H; [by injection H as <- | done].
  - assert (Hs : shutdown (run double_or_fail (Relay lone_relay)
                    (replicate 20 (Run O))
                    (ProducerConsumer_start lone_relay (fun _ => [1; 2; 3])))
                 = true) by (apply Hsink; vm_compute; discriminate).
    split; [exact Hs | apply Hset; [reflexivity | exact Hs]].
Defined.

Lemma stage_error_reports_witness :
  let s := run double_or_fail (Relay lone_relay) (replicate 20 (Run O))
               (ProducerConsumer_start lone_relay (fun _ => [1; 2; 3])) in
  (isinstance_Exception (ValueError "bad item") = true
   /\ (O, EvRaise (ValueError "bad item")) ∈ log s
   /\ shutdown s = true)
  /\ (length (errs_rev (log s)) <= 1)%nat.
Proof.
  destruct (stage_error_reports double_or_fail (Relay lone_relay)
              (ProducerConsumer_start lone_relay (fun _ => [1; 2; 3]))
              (replicate 20 (Run O))) as (Hin & _ & Hlen).
  - repeat split; try reflexivity.
    intros [| i] p H; simpl in H; [by injection H as <- | done].
  - split; [| exact Hlen].
    apply (Hin O (ValueError "bad item")). vm_compute.
    do 2 right. left.
Defined.

Lemma relay_data_put_before_sentinels_witness :
  let s := run double_or_fail
               (Relay (ProducerConsumer_init (plain_task 2 0 false)
                                             (Some (plain_task 3 0 false))))
               taking_turns
               (ProducerConsumer_start
                  (ProducerConsumer_init (plain_task 2 0 false)
                                         (Some (plain_task 3 0 false)))
                  (fun i => if Nat.eqb i 0 then [1; 2; 3] else [4; 5])) in
  data_then_sentinels (rev (puts_rev (log s))) = true
  /\ data_then_sentinels (q_out s) = true.
Proof.
  destruct (relay_data_put_before_sentinels double_or_fail
              (plain_task 2 0 false) (Some (plain_task 3 0 false))
              (fun i => if Nat.eqb i 0 then [1; 2; 3] else [4; 5])
              taking_turns) as [Hputs Hq].
  - unfold valid_task; simpl. repeat split; lia.
  - intros H. discriminate H.
  - split; [exact Hputs | exact (proj1 (Hq eq_refl))].
Defined.

Lemma relay_worker_outputs_witness :
  data_put_of 0 (log (run fan_out (Relay lone_relay) (replicate 20 (Run O))
                          (ProducerConsumer_start lone_relay (fun _ => [1; 5]))))
  = outputs fan_out [1; 5].
Proof.
  destruct (relay_worker_outputs fan_out lone_relay (fun _ => [1; 5])
              (replicate 20 (Run O)) O None) as [_ H].
  - reflexivity.
  - apply H; reflexivity.
Defined.

Lemma single_worker_preserves_order_witness :
  q_out (run fan_out (Relay lone_relay) (replicate 20 (Run O))
             (ProducerConsumer_start lone_relay (fun _ => [1; 5])))
  = (Data <$> outputs fan_out [1; 5]) ++ [StopSentinel].
Proof.
  apply (single_worker_preserves_order fan_out (plain_task 1 0 false) None
           (fun _ => [1; 5]) (replicate 20 (Run O))).
  - unfold valid_task; simpl. repeat split; lia.
  - reflexivity.
  - reflexivity.
  - reflexivity.
Defined.

Lemma completion_counter_bounds_witness :
  let s := run double_or_fail
               (Relay (ProducerConsumer_init (plain_task 2 0 true)
                                             (Some (plain_task 3 0 false))))
               taking_turns
               (ProducerConsumer_start
                  (ProducerConsumer_init (plain_task 2 0 true)
                                         (Some (plain_task 3 0 false)))
                  (fun i => if Nat.eqb i 0 then [1; 2; 3] else [4; 5])) in
  0 <= workers_done s <= 2 /\ (all_exited s -> workers_done s = 2).
Proof.
  destruct (completion_counter_bounds double_or_fail (plain_task 2 0 true)
              (Some (plain_task 3 0 false))
              (fun i => if Nat.eqb i 0 then [1; 2; 3] else [4; 5]) taking_turns)
    as (_ & Hle & _ & Hall).
  - unfold valid_task; simpl. repeat split; lia.
  - intros _. unfold c_int_max. simpl. lia.
  - split; [exact Hle | exact Hall].
Defined.

Lemma relay_after_shutdown_elsewhere_witness :
  let s := run fan_out (Relay lone_relay)
               (ShutdownElsewhere :: replicate 20 (Run O))
               (ProducerConsumer_start lone_relay (fun _ => [1; 5])) in
  datas (q_out s) = [] /\ dequeued 0 (log s) = [1; 5]
  /\ q_out s = [StopSentinel].
Proof.
  destruct (relay_after_shutdown_elsewhere fan_out (plain_task 1 0 false) None
              (fun _ => [1; 5]) (replicate 20 (Run O)))
    as (_ & _ & Hd & Hex & Hall).
  - unfold valid_task; simpl. repeat split; lia.
  - intros H. discriminate H.
  - split; [exact Hd |]. split.
    + exact (proj2 (Hex O None eq_refl)).
    + apply Hall. intros [| i] p H; vm_compute in H; [by injection H as <- | done].
Defined.

Lemma counters_agree_witness :
  run double_or_fail
      (Relay (ProducerConsumer_init (plain_task 2 0 true)
                                    (Some (plain_task 3 0 false))))
      taking_turns
      (ProducerConsumer_start
         (ProducerConsumer_init (plain_task 2 0 true)
                                (Some (plain_task 3 0 false)))
         (fun i => if Nat.eqb i 0 then [1; 2; 3] else [4; 5]))
  = run double_or_fail
        (Relay (in_process (ProducerConsumer_init (plain_task 2 0 true)
                                                  (Some (plain_task 3 0 false)))))
        taking_turns
        (ProducerConsumer_start
           (in_process (ProducerConsumer_init (plain_task 2 0 true)
                                              (Some (plain_task 3 0 false))))
           (fun i => if Nat.eqb i 0 then [1; 2; 3] else [4; 5])).
Proof.
  apply (counters_agree double_or_fail
           (ProducerConsumer_init (plain_task 2 0 true)
                                  (Some (plain_task 3 0 false)))).
  split; [simpl; lia | intros _; unfold c_int_max; simpl; lia].
Defined.
